(** * The Storybook story store ([lib/client-api/src/story_store.ts])

    A shallow embedding of the [StoryStore] class and the properties of it
    that its specification states.

    Conventions of the model.

    - A JavaScript object used as a map is an association list kept in the
      order in which [Object.keys] enumerates it: array-index keys in
      ascending numeric order first, then the remaining keys in insertion
      order.  The list holds the own properties of the object.  A plain
      object also inherits the members of [Object.prototype]
      ([constructor], [toString], [__proto__], ...): a read [o[k]] of such
      a name [k] that [o] does not own gives the inherited member, and an
      assignment to [__proto__] creates no property.  The methods are
      modelled for the keys where the two agree, which are the keys that
      the object owns and the names that are not [inherited]; a property
      whose statement depends on the outcome of such a read restricts the
      key in its hypotheses.
    - JavaScript numbers are modelled by integers, function values by opaque
      identifiers.  The numbers of the store are counts, which a double
      holds exactly, up to the revision: it is a double that counts up from
      0, and stays at 2^53 once it has got there.
    - A method of the class is a computation in the monad [M]: it reads and
      updates the store and completes normally or throws.  An exception does
      not undo the assignments made before it.
    - The event channel is the list of the events emitted so far; a store
      built without a channel has [None] there.
    - Every [HooksContext] is identified by a number; the store model keeps
      the list of the contexts on which [clean()] has been called. *)

From Stdlib Require Import List String Ascii ZArith NArith Bool Lia.
From Stdlib Require Import Permutation Sorted.
Import ListNotations.

Local Open Scope string_scope.
Local Open Scope list_scope.
Local Open Scope Z_scope.

(** ** JavaScript objects as ordered maps *)

Module JsObject.

Definition obj (A : Type) : Type := list (string * A).

Definition digit_of (c : ascii) : option N :=
  let n := N_of_ascii c in
  if ((48 <=? n) && (n <=? 57))%N then Some (n - 48)%N else None.

Fixpoint parse_digits (s : string) (acc : N) : option N :=
  match s with
  | EmptyString => Some acc
  | String c s' =>
      match digit_of c with
      | Some d => parse_digits s' (10 * acc + d)%N
      | None => None
      end
  end.

(** A property key is an array index when it is the canonical decimal
    spelling of an integer between 0 and 2^32 - 2. *)
Definition array_index (k : string) : option N :=
  match k with
  | EmptyString => None
  | String c rest =>
      if (Ascii.eqb c "0" && negb (String.eqb rest ""))%bool then None
      else match parse_digits k 0 with
           | Some n => if (n <? 4294967295)%N then Some n else None
           | None => None
           end
  end.

(** [comes_before k k'] : a new key [k] is enumerated before the existing
    key [k']. *)
Definition comes_before (k k' : string) : bool :=
  match array_index k, array_index k' with
  | Some n, Some n' => (n <? n')%N
  | Some _, None => true
  | None, _ => false
  end.

Section Ops.
Context {A : Type}.

(** [o[k]] for an own property *)
Fixpoint oget (k : string) (o : obj A) : option A :=
  match o with
  | [] => None
  | (k', v) :: o' => if String.eqb k k' then Some v else oget k o'
  end.

Definition ohas (k : string) (o : obj A) : bool :=
  match oget k o with Some _ => true | None => false end.

Fixpoint oreplace (k : string) (v : A) (o : obj A) : obj A :=
  match o with
  | [] => []
  | (k', v') :: o' =>
      if String.eqb k k' then (k', v) :: o' else (k', v') :: oreplace k v o'
  end.

Fixpoint oinsert (k : string) (v : A) (o : obj A) : obj A :=
  match o with
  | [] => [(k, v)]
  | (k', v') :: o' =>
      if comes_before k k' then (k, v) :: o else (k', v') :: oinsert k v o'
  end.

(** [o[k] = v] : an existing property keeps its place *)
Definition oset (k : string) (v : A) (o : obj A) : obj A :=
  if ohas k o then oreplace k v o else oinsert k v o.

(** [delete o[k]] *)
Definition odelete (k : string) (o : obj A) : obj A :=
  filter (fun p => negb (String.eqb k (fst p))) o.

Definition okeys (o : obj A) : list string := map fst o.
Definition ovalues (o : obj A) : list A := map snd o.
Definition oentries (o : obj A) : list (string * A) := o.

(** [Object.assign(target, src)] *)
Definition Object_assign (target src : obj A) : obj A :=
  fold_left (fun t p => oset (fst p) (snd p) t) src target.

(** [{...a, ...b}] *)
Definition spread2 (a b : obj A) : obj A :=
  Object_assign (Object_assign [] a) b.
End Ops.

End JsObject.
Import JsObject.


(** ** JavaScript values *)

Definition fnid := nat.

#[local] Set Warnings "-register-all".

Inductive value : Type :=
| VUndefined
| VNull
| VBool (b : bool)
| VNum (n : Z)
| VStr (s : string)
| VArr (elems : list value)
| VObj (props : list (string * value))
| VFun (f : fnid).

Definition Parameters := obj value.
Definition Args := obj value.

(** ToBoolean *)
Definition truthy (v : value) : bool :=
  match v with
  | VUndefined | VNull => false
  | VBool b => b
  | VNum n => negb (n =? 0)
  | VStr s => negb (String.eqb s "")
  | VArr _ | VObj _ | VFun _ => true
  end.

Definition truthy_string (s : string) : bool := negb (String.eqb s "").

(** [o.k] on an object: [undefined] when the property is absent *)
Definition prop (o : obj value) (k : string) : value :=
  match oget k o with Some v => v | None => VUndefined end.

(** [v.k] on a value that is neither [null] nor [undefined] *)
Definition get (v : value) (k : string) : value :=
  match v with
  | VObj o => prop o k
  | _ => VUndefined
  end.

Fixpoint string_of_N_digits (fuel : nat) (n : N) (acc : string) : string :=
  match fuel with
  | O => acc
  | S fuel' =>
      let d := String (ascii_of_N (48 + n mod 10)) acc in
      if (n / 10 =? 0)%N then d else string_of_N_digits fuel' (n / 10) d
  end.

Definition index_key (i : nat) : string :=
  string_of_N_digits (S i) (N.of_nat i) "".

Fixpoint indexed {A : Type} (i : nat) (l : list A) : obj A :=
  match l with
  | [] => []
  | x :: l' => (index_key i, x) :: indexed (S i) l'
  end.

Fixpoint chars (s : string) : list value :=
  match s with
  | EmptyString => []
  | String c s' => VStr (String c "") :: chars s'
  end.

(** The own enumerable properties of a value, as [Object.entries] and the
    spread syntax see them. *)
Definition own_entries (v : value) : obj value :=
  match v with
  | VObj o => o
  | VArr l => indexed 0 l
  | VStr s => indexed 0 (chars s)
  | _ => []
  end.

(** ** The parameter merger ([./parameters]) *)

(** Modelled from the spec: [combineParameters] of [./parameters], a
    recursive deep merge in which later mappings override earlier ones, two
    nested mappings are merged recursively, and any other value (arrays
    included) is replaced whole by the later one. *)
Fixpoint mergeValue (acc : option value) (src : value) {struct src} : value :=
  match src with
  | VObj ps =>
      match acc with
      | Some (VObj pa) =>
          VObj ((fix mergeProps (ps : list (string * value)) (pa : obj value)
                   {struct ps} : obj value :=
                   match ps with
                   | [] => pa
                   | (k, v) :: ps' =>
                       mergeProps ps' (oset k (mergeValue (oget k pa) v) pa)
                   end) ps pa)
      | _ => src
      end
  | _ => src
  end.

(** Modelled from the spec: the merge of two parameter mappings, the later
    one ([src]) overriding the earlier one ([acc]). *)
Definition mergeParameters (acc src : Parameters) : Parameters :=
  match mergeValue (Some (VObj acc)) (VObj src) with
  | VObj o => o
  | _ => acc
  end.

(** Modelled from the spec: [combineParameters(...parameterSets)] of
    [./parameters], the mappings merged from left to right, starting from
    the empty mapping. *)
Definition combineParameters (parameterSets : list Parameters) : Parameters :=
  fold_left mergeParameters parameterSets [].

(** ** Data model *)

Definition DecoratorFunction := fnid.

Record StoryMetadata := {
  md_parameters : Parameters;
  md_decorators : list DecoratorFunction
}.

(** [type KindMetadata = StoryMetadata & { order: number }] *)
Record KindMetadata := {
  order : Z;
  kind_parameters : Parameters;
  kind_decorators : list DecoratorFunction
}.

(** What a parameter enhancer receives:
    [{ ...identification, parameters, args }]. *)
Record StoryContext := {
  ctx_id : string;
  ctx_kind : string;
  ctx_name : string;
  ctx_story : string;
  ctx_parameters : Parameters;
  ctx_args : Args
}.

Definition ParameterEnhancer := StoryContext -> Parameters.

Definition HooksContext := nat.

(** The lazily decorated story function,
    [memoize(1)(() => applyDecorators(finalStoryFn, decorators))]:
    [passArgsFirst] tells whether [finalStoryFn] is the adapter that calls
    the original with [(context.args, context)]. *)
Record Decorated := {
  dec_applyDecorators : fnid;
  dec_passArgsFirst : bool;
  dec_original : fnid;
  dec_decorators : list DecoratorFunction
}.

(** A record of [_stories].  The [storyFn] field of the source is a closure
    over [getDecorated], the identification and the store; it is a function
    value and carries no data of its own. *)
Record StoreItem := {
  id : string;
  kind : string;
  name : string;
  story : string;
  hooks : HooksContext;
  getDecorated : Decorated;
  getOriginal : fnid;
  parameters : Parameters;
  args : Args
}.

Record PublishedStoreItem := {
  pub_item : StoreItem;
  pub_globalArgs : Args
}.

(** The result of [toExtracted] on a story record: the function-valued
    fields and [hooks] are dropped.  No remaining field of a record is an
    array, so nothing is sorted. *)
Record Extracted := {
  ex_id : string;
  ex_kind : string;
  ex_name : string;
  ex_story : string;
  ex_parameters : Parameters;
  ex_args : Args
}.

Record AddStoryArgs := {
  a_id : string;
  a_kind : string;
  a_name : string;
  a_storyFn : fnid;
  a_parameters : option Parameters;
  a_decorators : option (list DecoratorFunction)
}.

Record AddStoryOptions := {
  applyDecorators : fnid;
  allowUnsafe : bool
}.

Record StoryOptions := {
  includeDocsOnly : option bool
}.

Record Selection := {
  storyId : string;
  viewMode : string
}.

Record ErrorLike := {
  message : string;
  stack : string
}.

(** Events emitted on the channel ([@storybook/core-events]) *)
Inductive event : Type :=
| SET_STORIES (stories : obj Extracted)
| RENDER_CURRENT_STORY
| CURRENT_STORY_WAS_SET (selection : Selection)
| GLOBAL_ARGS_CHANGED (globalArgs : Args)
| STORY_ARGS_CHANGED (id : string) (args : Args).

Definition Channel := list event.

(** Exceptions: [new Error(message)], or the [TypeError] of a property
    access on [null] or [undefined]. *)
Inductive exn : Type :=
| Error (message : string)
| TypeError.

Inductive log_entry : Type :=
| Warn_story_exists (id : string).

Record StoryStore := {
  _error : option ErrorLike;
  _channel : option Channel;
  _configuring : bool;
  _globalArgs : Args;
  _globalMetadata : StoryMetadata;
  _kinds : obj KindMetadata;
  _stories : obj StoreItem;
  _parameterEnhancers : list ParameterEnhancer;
  _revision : Z;
  _selection : option Selection;
  (* the world around the store *)
  hooksCreated : nat;
  hooksCleaned : list HooksContext;
  logged : list log_entry
}.

Definition set_error v s :=
  {| _error := v; _channel := _channel s; _configuring := _configuring s;
     _globalArgs := _globalArgs s; _globalMetadata := _globalMetadata s;
     _kinds := _kinds s; _stories := _stories s;
     _parameterEnhancers := _parameterEnhancers s; _revision := _revision s;
     _selection := _selection s; hooksCreated := hooksCreated s;
     hooksCleaned := hooksCleaned s; logged := logged s |}.

Definition set_channel v s :=
  {| _error := _error s; _channel := v; _configuring := _configuring s;
     _globalArgs := _globalArgs s; _globalMetadata := _globalMetadata s;
     _kinds := _kinds s; _stories := _stories s;
     _parameterEnhancers := _parameterEnhancers s; _revision := _revision s;
     _selection := _selection s; hooksCreated := hooksCreated s;
     hooksCleaned := hooksCleaned s; logged := logged s |}.

Definition set_configuring v s :=
  {| _error := _error s; _channel := _channel s; _configuring := v;
     _globalArgs := _globalArgs s; _globalMetadata := _globalMetadata s;
     _kinds := _kinds s; _stories := _stories s;
     _parameterEnhancers := _parameterEnhancers s; _revision := _revision s;
     _selection := _selection s; hooksCreated := hooksCreated s;
     hooksCleaned := hooksCleaned s; logged := logged s |}.

Definition set_globalArgs v s :=
  {| _error := _error s; _channel := _channel s; _configuring := _configuring s;
     _globalArgs := v; _globalMetadata := _globalMetadata s;
     _kinds := _kinds s; _stories := _stories s;
     _parameterEnhancers := _parameterEnhancers s; _revision := _revision s;
     _selection := _selection s; hooksCreated := hooksCreated s;
     hooksCleaned := hooksCleaned s; logged := logged s |}.

Definition set_globalMetadata v s :=
  {| _error := _error s; _channel := _channel s; _configuring := _configuring s;
     _globalArgs := _globalArgs s; _globalMetadata := v;
     _kinds := _kinds s; _stories := _stories s;
     _parameterEnhancers := _parameterEnhancers s; _revision := _revision s;
     _selection := _selection s; hooksCreated := hooksCreated s;
     hooksCleaned := hooksCleaned s; logged := logged s |}.

Definition set_kinds v s :=
  {| _error := _error s; _channel := _channel s; _configuring := _configuring s;
     _globalArgs := _globalArgs s; _globalMetadata := _globalMetadata s;
     _kinds := v; _stories := _stories s;
     _parameterEnhancers := _parameterEnhancers s; _revision := _revision s;
     _selection := _selection s; hooksCreated := hooksCreated s;
     hooksCleaned := hooksCleaned s; logged := logged s |}.

Definition set_stories v s :=
  {| _error := _error s; _channel := _channel s; _configuring := _configuring s;
     _globalArgs := _globalArgs s; _globalMetadata := _globalMetadata s;
     _kinds := _kinds s; _stories := v;
     _parameterEnhancers := _parameterEnhancers s; _revision := _revision s;
     _selection := _selection s; hooksCreated := hooksCreated s;
     hooksCleaned := hooksCleaned s; logged := logged s |}.

Definition set_parameterEnhancers v s :=
  {| _error := _error s; _channel := _channel s; _configuring := _configuring s;
     _globalArgs := _globalArgs s; _globalMetadata := _globalMetadata s;
     _kinds := _kinds s; _stories := _stories s;
     _parameterEnhancers := v; _revision := _revision s;
     _selection := _selection s; hooksCreated := hooksCreated s;
     hooksCleaned := hooksCleaned s; logged := logged s |}.

Definition set_revision v s :=
  {| _error := _error s; _channel := _channel s; _configuring := _configuring s;
     _globalArgs := _globalArgs s; _globalMetadata := _globalMetadata s;
     _kinds := _kinds s; _stories := _stories s;
     _parameterEnhancers := _parameterEnhancers s; _revision := v;
     _selection := _selection s; hooksCreated := hooksCreated s;
     hooksCleaned := hooksCleaned s; logged := logged s |}.

Definition set_selection v s :=
  {| _error := _error s; _channel := _channel s; _configuring := _configuring s;
     _globalArgs := _globalArgs s; _globalMetadata := _globalMetadata s;
     _kinds := _kinds s; _stories := _stories s;
     _parameterEnhancers := _parameterEnhancers s; _revision := _revision s;
     _selection := v; hooksCreated := hooksCreated s;
     hooksCleaned := hooksCleaned s; logged := logged s |}.

Definition set_hooksCreated v s :=
  {| _error := _error s; _channel := _channel s; _configuring := _configuring s;
     _globalArgs := _globalArgs s; _globalMetadata := _globalMetadata s;
     _kinds := _kinds s; _stories := _stories s;
     _parameterEnhancers := _parameterEnhancers s; _revision := _revision s;
     _selection := _selection s; hooksCreated := v;
     hooksCleaned := hooksCleaned s; logged := logged s |}.

Definition set_hooksCleaned v s :=
  {| _error := _error s; _channel := _channel s; _configuring := _configuring s;
     _globalArgs := _globalArgs s; _globalMetadata := _globalMetadata s;
     _kinds := _kinds s; _stories := _stories s;
     _parameterEnhancers := _parameterEnhancers s; _revision := _revision s;
     _selection := _selection s; hooksCreated := hooksCreated s;
     hooksCleaned := v; logged := logged s |}.

Definition set_logged v s :=
  {| _error := _error s; _channel := _channel s; _configuring := _configuring s;
     _globalArgs := _globalArgs s; _globalMetadata := _globalMetadata s;
     _kinds := _kinds s; _stories := _stories s;
     _parameterEnhancers := _parameterEnhancers s; _revision := _revision s;
     _selection := _selection s; hooksCreated := hooksCreated s;
     hooksCleaned := hooksCleaned s; logged := v |}.

(** ** The monad of store methods *)

Inductive completion (A : Type) : Type :=
| Normal (a : A)
| Throw (e : exn).
Arguments Normal {A} a.
Arguments Throw {A} e.

Definition M (A : Type) : Type := StoryStore -> completion A * StoryStore.

Definition ret {A} (a : A) : M A := fun s => (Normal a, s).

Definition bind {A B} (m : M A) (f : A -> M B) : M B :=
  fun s =>
    match m s with
    | (Normal a, s') => f a s'
    | (Throw e, s') => (Throw e, s')
    end.

Definition throw {A} (e : exn) : M A := fun s => (Throw e, s).
Definition this : M StoryStore := fun s => (Normal s, s).
Definition update (f : StoryStore -> StoryStore) : M unit :=
  fun s => (Normal tt, f s).

Declare Scope store_scope.
Delimit Scope store_scope with store.
Notation "x <- m ;; k" := (bind m (fun x => k))
  (at level 61, m at next level, right associativity) : store_scope.
Notation "m ;; k" := (bind m (fun _ => k))
  (at level 61, right associativity) : store_scope.
Local Open Scope store_scope.

(** The store a method leaves behind, and how it completed. *)
Definition after {A} (m : M A) (s : StoryStore) : StoryStore := snd (m s).
Definition outcome {A} (m : M A) (s : StoryStore) : completion A := fst (m s).

(** ** The [stable] package

    [stable.inplace(arr, comp)] is a bottom-up merge sort: the array is cut
    into runs of one element, and adjacent runs are merged, pass after pass,
    until one run is left.  When two runs are merged the element of the left
    run goes first whenever [comp(left, right) <= 0].  A comparator that
    throws is one that returns [None].  The number of passes is bounded by
    the length of the array ([inplace_total] below). *)

Module Stable.
Section Sort.
Context {A : Type}.
Variable comp : A -> A -> option Z.

Fixpoint merge (l r : list A) {struct l} : option (list A) :=
  let fix merge_right (r : list A) {struct r} : option (list A) :=
    match l, r with
    | [], _ => Some r
    | _, [] => Some l
    | a :: l', b :: r' =>
        match comp a b with
        | None => None
        | Some c =>
            if c <=? 0 then option_map (cons a) (merge l' r)
            else option_map (cons b) (merge_right r')
        end
    end
  in merge_right r.

Fixpoint pass (runs : list (list A)) : option (list (list A)) :=
  match runs with
  | l :: r :: rest =>
      match merge l r, pass rest with
      | Some m, Some ms => Some (m :: ms)
      | _, _ => None
      end
  | _ => Some runs
  end.

Fixpoint exec (fuel : nat) (runs : list (list A)) : option (list A) :=
  match runs with
  | [] => Some []
  | [run] => Some run
  | _ =>
      match fuel with
      | O => None
      | S fuel' =>
          match pass runs with
          | Some runs' => exec fuel' runs'
          | None => None
          end
      end
  end.

Definition inplace (arr : list A) : option (list A) :=
  exec (List.length arr) (map (fun x => [x]) arr).
End Sort.
End Stable.

(** ** Reading the store *)

Definition isStoryDocsOnly (parameters : option Parameters) : value :=
  match parameters with
  | Some p => prop p "docsOnly"
  | None => VUndefined
  end.

Definition default_StoryOptions : StoryOptions :=
  {| includeDocsOnly := Some false |}.

Definition includeStory (item : StoreItem) (options : option StoryOptions) : bool :=
  let options :=
    match options with Some o => o | None => default_StoryOptions end in
  match includeDocsOnly options with
  | Some true => true
  | _ => negb (truthy (isStoryDocsOnly (Some (parameters item))))
  end.

Definition toExtracted (item : StoreItem) : Extracted :=
  {| ex_id := id item; ex_kind := kind item; ex_name := name item;
     ex_story := story item; ex_parameters := parameters item;
     ex_args := args item |}.

Definition fromId (s : StoryStore) (storyId : string) : option PublishedStoreItem :=
  match oget storyId (_stories s) with
  | None => None
  | Some data => Some {| pub_item := data; pub_globalArgs := _globalArgs s |}
  end.

(** The filter on [getDecorated] keeps every record: the field is always a
    function. *)
Definition raw (s : StoryStore) (options : option StoryOptions)
  : list (option PublishedStoreItem) :=
  map (fun i => fromId s (id i))
    (filter (fun i => includeStory i options)
       (filter (fun _ => true) (ovalues (_stories s)))).

(** [raw().filter(story => story.kind === kind)]: reading [kind] of a [null]
    element throws. *)
Fixpoint filterKind (k : string) (l : list (option PublishedStoreItem))
  : completion (list PublishedStoreItem) :=
  match l with
  | [] => Normal []
  | None :: _ => Throw TypeError
  | Some p :: l' =>
      match filterKind k l' with
      | Normal r =>
          Normal (if String.eqb (kind (pub_item p)) k then p :: r else r)
      | Throw e => Throw e
      end
  end.

Definition getStoriesForKind (s : StoryStore) (k : string)
  : completion (list PublishedStoreItem) :=
  filterKind k (raw s None).

Definition getSelection (s : StoryStore) : option Selection := _selection s.
Definition getError (s : StoryStore) : option ErrorLike := _error s.
Definition getRevision (s : StoryStore) : Z := _revision s.

(** ** Methods that change the store *)

(** [new StoryStore({ channel })] *)
Definition newStoryStore (channel : option Channel) : StoryStore :=
  {| _error := None; _channel := channel; _configuring := true;
     _globalArgs := [];
     _globalMetadata := {| md_parameters := []; md_decorators := [] |};
     _kinds := []; _stories := []; _parameterEnhancers := [];
     _revision := 0; _selection := None;
     hooksCreated := 0; hooksCleaned := []; logged := [] |}.

Definition lift {A} (c : completion A) : M A :=
  match c with Normal a => ret a | Throw e => throw e end.

Fixpoint forEach {A} (l : list A) (f : A -> M unit) : M unit :=
  match l with
  | [] => ret tt
  | x :: l' => f x ;; forEach l' f
  end.

(** [this._channel.emit(e)]: a [TypeError] when the channel is [null] *)
Definition emit (e : event) : M unit :=
  s <- this ;;
  match _channel s with
  | Some c => update (set_channel (Some (c ++ [e])))
  | None => throw TypeError
  end.

(** [if (this._channel) ...] *)
Definition ifChannel (m : M unit) : M unit :=
  s <- this ;;
  match _channel s with Some _ => m | None => ret tt end.

Definition hooks_clean (h : HooksContext) : M unit :=
  update (fun s => set_hooksCleaned (hooksCleaned s ++ [h]) s).

Definition startConfiguring : M unit :=
  update (set_configuring true).

Definition addGlobalMetadata (m : StoryMetadata) : M unit :=
  s <- this ;;
  let globalParameters := md_parameters (_globalMetadata s) in
  update (fun s =>
    set_globalMetadata
      {| md_parameters := combineParameters [globalParameters; md_parameters m];
         md_decorators := md_decorators (_globalMetadata s) |} s) ;;
  update (fun s =>
    set_globalMetadata
      {| md_parameters := md_parameters (_globalMetadata s);
         md_decorators := md_decorators (_globalMetadata s) ++ md_decorators m |} s).

Definition clearGlobalDecorators : M unit :=
  update (fun s =>
    set_globalMetadata
      {| md_parameters := md_parameters (_globalMetadata s);
         md_decorators := [] |} s).

(** The methods below read [this._kinds[kind]] and [this._stories[id]] as
    own properties: that is what the code reads for a key that the object
    owns, and for every key that is not an [inherited] name. *)
Definition ensureKind (k : string) : M unit :=
  s <- this ;;
  match oget k (_kinds s) with
  | Some _ => ret tt
  | None =>
      update (set_kinds
        (oset k {| order := Z.of_nat (List.length (okeys (_kinds s)));
                   kind_parameters := [];
                   kind_decorators := [] |} (_kinds s)))
  end.

(** [this._kinds[k].field = ...]: a [TypeError] when [this._kinds[k]] is
    [undefined] *)
Definition updateKind (k : string) (f : KindMetadata -> KindMetadata) : M unit :=
  s <- this ;;
  match oget k (_kinds s) with
  | Some km => update (set_kinds (oset k (f km) (_kinds s)))
  | None => throw TypeError
  end.

Definition addKindMetadata (k : string) (m : StoryMetadata) : M unit :=
  ensureKind k ;;
  updateKind k (fun km =>
    {| order := order km;
       kind_parameters := combineParameters [kind_parameters km; md_parameters m];
       kind_decorators := kind_decorators km |}) ;;
  updateKind k (fun km =>
    {| order := order km;
       kind_parameters := kind_parameters km;
       kind_decorators := kind_decorators km ++ md_decorators m |}).

Definition addParameterEnhancer (parameterEnhancer : ParameterEnhancer) : M unit :=
  s <- this ;;
  if (0 <? List.length (okeys (_stories s)))%nat
  then throw (Error
    "Cannot add a parameter enhancer to the store after a story has been added.")
  else update (fun s =>
    set_parameterEnhancers (_parameterEnhancers s ++ [parameterEnhancer]) s).

Definition not_configuring_message (what : string) : string :=
  ("Cannot " ++ what ++ " when not configuring, see https://github.com/storybookjs/storybook/blob/next/MIGRATION.md#story-store-immutable-outside-of-configuration")%string.

(** [if (!this._configuring && !allowUnsafe) throw new Error(...)] *)
Definition whenConfiguring (allowUnsafe : bool) (what : string) : M unit :=
  s <- this ;;
  if negb (_configuring s) && negb allowUnsafe
  then throw (Error (not_configuring_message what))
  else ret tt.

(** The enhancer pipeline of [addStory]: the [reduce] over
    [_parameterEnhancers]. *)
Definition enhance (enhancers : list ParameterEnhancer)
    (i k n : string) (parametersBeforeEnhancement : Parameters) : Parameters :=
  fold_left
    (fun accumlatedParameters enhancer =>
       spread2 accumlatedParameters
         (enhancer {| ctx_id := i; ctx_kind := k; ctx_name := n; ctx_story := n;
                      ctx_parameters := accumlatedParameters; ctx_args := [] |}))
    enhancers parametersBeforeEnhancement.

(** The [reduce] over [Object.entries(parameters.argTypes)]; destructuring
    [{ defaultValue }] out of [null] or [undefined] is a [TypeError]. *)
Definition defaultArgsOf (argTypes : value) : completion Args :=
  fold_left
    (fun acc p =>
       match acc with
       | Throw e => Throw e
       | Normal acc =>
           match snd p with
           | VUndefined | VNull => Throw TypeError
           | v =>
               let defaultValue := get v "defaultValue" in
               Normal (if truthy defaultValue then oset (fst p) defaultValue acc
                       else acc)
           end
       end)
    (own_entries argTypes) (Normal []).

Definition defaultArgs (parameters : Parameters) : completion Args :=
  if truthy (prop parameters "argTypes")
  then defaultArgsOf (prop parameters "argTypes")
  else Normal [].

Definition initialArgs (parameters : Parameters) : value :=
  if truthy (prop parameters "args") then prop parameters "args" else VObj [].

Definition addStory (a : AddStoryArgs) (o : AddStoryOptions) : M unit :=
  let storyParameters :=
    match a_parameters a with Some p => p | None => [] end in
  let storyDecorators :=
    match a_decorators a with Some d => d | None => [] end in
  whenConfiguring (allowUnsafe o) "add a story" ;;
  s <- this ;;
  (if ohas (a_id a) (_stories s)
   then update (fun s => set_logged (logged s ++ [Warn_story_exists (a_id a)]) s)
   else ret tt) ;;
  ensureKind (a_kind a) ;;
  s <- this ;;
  match oget (a_kind a) (_kinds s) with
  | None => throw TypeError
  | Some kindMetadata =>
      let decorators :=
        storyDecorators ++ kind_decorators kindMetadata
          ++ md_decorators (_globalMetadata s) in
      let parametersBeforeEnhancement :=
        combineParameters
          [md_parameters (_globalMetadata s);
           kind_parameters kindMetadata;
           storyParameters] in
      let parameters :=
        enhance (_parameterEnhancers s) (a_id a) (a_kind a) (a_name a)
          parametersBeforeEnhancement in
      let getDecorated :=
        {| dec_applyDecorators := applyDecorators o;
           dec_passArgsFirst := truthy (prop parameters "passArgsFirst");
           dec_original := a_storyFn a;
           dec_decorators := decorators |} in
      let hooks := hooksCreated s in
      update (set_hooksCreated (S hooks)) ;;
      defaultArgs <- lift (defaultArgs parameters) ;;
      update (fun s =>
        set_stories
          (oset (a_id a)
             {| id := a_id a; kind := a_kind a; name := a_name a;
                story := a_name a;
                hooks := hooks;
                getDecorated := getDecorated;
                getOriginal := a_storyFn a;
                parameters := parameters;
                args := Object_assign (Object_assign [] defaultArgs)
                          (own_entries (initialArgs parameters)) |}
             (_stories s)) s)
  end.

Definition remove (i : string) (allowUnsafe : bool) : M unit :=
  whenConfiguring allowUnsafe "remove a story" ;;
  s <- this ;;
  let story := oget i (_stories s) in
  update (fun s => set_stories (odelete i (_stories s)) s) ;;
  match story with
  | Some st => hooks_clean (hooks st)
  | None => ret tt
  end.

Definition cleanHooks (i : string) : M unit :=
  s <- this ;;
  match oget i (_stories s) with
  | Some st => hooks_clean (hooks st)
  | None => ret tt
  end.

Definition cleanHooksForKind (k : string) : M unit :=
  s <- this ;;
  l <- lift (getStoriesForKind s k) ;;
  forEach l (fun p => cleanHooks (id (pub_item p))).

Definition removeStoryKind (k : string) (allowUnsafe : bool) : M unit :=
  whenConfiguring allowUnsafe "remove a kind" ;;
  s <- this ;;
  match oget k (_kinds s) with
  | None => ret tt
  | Some _ =>
      updateKind k (fun km =>
        {| order := order km; kind_parameters := [];
           kind_decorators := kind_decorators km |}) ;;
      updateKind k (fun km =>
        {| order := order km; kind_parameters := kind_parameters km;
           kind_decorators := [] |}) ;;
      cleanHooksForKind k ;;
      update (fun s =>
        set_stories
          (fold_left
             (fun acc p =>
                if negb (String.eqb (kind (snd p)) k)
                then oset (fst p) (snd p) acc else acc)
             (oentries (_stories s)) []) s)
  end.

Definition setGlobalArgs (newGlobalArgs : Args) : M unit :=
  update (fun s => set_globalArgs (spread2 (_globalArgs s) newGlobalArgs) s) ;;
  s <- this ;;
  emit (GLOBAL_ARGS_CHANGED (_globalArgs s)).

Definition setStoryArgs (i : string) (newArgs : Args) : M unit :=
  s <- this ;;
  match oget i (_stories s) with
  | None => throw (Error ("No story for id " ++ i)%string)
  | Some st =>
      let st' :=
        {| id := id st; kind := kind st; name := name st; story := story st;
           hooks := hooks st; getDecorated := getDecorated st;
           getOriginal := getOriginal st; parameters := parameters st;
           args := spread2 (args st) newArgs |} in
      update (fun s => set_stories (oset i st' (_stories s)) s) ;;
      emit (STORY_ARGS_CHANGED i (args st'))
  end.

Definition clearError : M unit :=
  update (set_error None).

Definition setError (err : ErrorLike) : M unit :=
  update (set_error (Some err)) ;;
  ifChannel (emit RENDER_CURRENT_STORY).

Definition setSelection (selection : Selection) : M unit :=
  update (set_selection (Some selection)) ;;
  ifChannel (
    s <- this ;;
    emit (CURRENT_STORY_WAS_SET selection) ;;
    if negb (_configuring s) then emit RENDER_CURRENT_STORY else ret tt).

(** [this._revision += 1], on a double that holds an integer between 0 and
    [2^53]: the sum is exact below [2^53], and [2^53 + 1] rounds to
    [2^53]. *)
Definition max_revision : Z := 9007199254740992.

Definition incrementRevision : M unit :=
  update (fun s =>
    set_revision
      (if _revision s <? max_revision then _revision s + 1 else _revision s) s).

(** ** Extraction, and the methods that depend on it *)

Definition entry : Type := string * StoreItem.

(** The functions the store calls as comparators: [call_comparator f a b]
    is the number returned by the function value [f] called on two entries
    [[id, story]]; [storySort spec] is the comparator that the [./storySort]
    module builds from a declarative sort specification. *)
Record Comparators := {
  call_comparator : fnid -> entry -> entry -> Z;
  storySort : value -> entry -> entry -> Z
}.

Section Extraction.

Variable env : Comparators.

(** The predicate of the [find] over [Object.keys(this._stories)] *)
Definition has_options (s : StoryStore) (key : string) : bool :=
  match oget key (_stories s) with
  | Some st => truthy (prop (parameters st) "options")
  | None => false
  end.

(** [Some storySortParameter] when [extract] takes its first branch.  The
    key found is a key of [_stories], so the lookup of [index] cannot
    fail. *)
Definition storySortParameter (s : StoryStore) : option value :=
  match find (has_options s) (okeys (_stories s)) with
  | Some index =>
      if truthy_string index then
        match oget index (_stories s) with
        | Some st =>
            let p := get (prop (parameters st) "options") "storySort" in
            if truthy p then Some p else None
        | None => None
        end
      else None
  | None => None
  end.

Definition sortFn (storySortParameter : value) : entry -> entry -> option Z :=
  match storySortParameter with
  | VFun f => fun a b => Some (call_comparator env f a b)
  | spec => fun a b => Some (storySort env spec a b)
  end.

(** [(s1, s2) => this._kinds[s1[1].kind].order - this._kinds[s2[1].kind].order],
    for stories whose groups are own properties of [_kinds]; the read of
    [order] on [undefined] is a [TypeError]. *)
Definition byKindOrder (s : StoryStore) (s1 s2 : entry) : option Z :=
  match oget (kind (snd s1)) (_kinds s), oget (kind (snd s2)) (_kinds s) with
  | Some k1, Some k2 => Some (order k1 - order k2)
  | _, _ => None
  end.

(** The [stories] array of [extract] once it has been sorted *)
Definition sortedStories (s : StoryStore) : option (list entry) :=
  let stories := oentries (_stories s) in
  if (0 <? List.length (ovalues (_stories s)))%nat then
    match storySortParameter s with
    | Some p => Stable.inplace (sortFn p) stories
    | None => Stable.inplace (byKindOrder s) stories
    end
  else Some stories.

Definition extract (s : StoryStore) (options : option StoryOptions)
  : completion (obj Extracted) :=
  match sortedStories s with
  | Some stories =>
      Normal
        (fold_left
           (fun a p =>
              if includeStory (snd p) options
              then Object_assign a [(fst p, toExtracted (snd p))]
              else a)
           stories [])
  | None => Throw TypeError
  end.

Definition getStoriesForManager (s : StoryStore) : completion (obj Extracted) :=
  extract s (Some {| includeDocsOnly := Some true |}).

Definition pushToManager : M unit :=
  ifChannel (
    s <- this ;;
    stories <- lift (getStoriesForManager s) ;;
    emit (SET_STORIES stories)).

Definition finishConfiguring : M unit :=
  update (set_configuring false) ;;
  pushToManager ;;
  ifChannel (emit RENDER_CURRENT_STORY).

(** *** Histories of calls *)

Inductive call : Type :=
| StartConfiguring
| FinishConfiguring
| AddGlobalMetadata (m : StoryMetadata)
| ClearGlobalDecorators
| EnsureKind (k : string)
| AddKindMetadata (k : string) (m : StoryMetadata)
| AddParameterEnhancer (e : ParameterEnhancer)
| AddStory (a : AddStoryArgs) (o : AddStoryOptions)
| Remove (i : string) (allowUnsafe : bool)
| RemoveStoryKind (k : string) (allowUnsafe : bool)
| SetGlobalArgs (newGlobalArgs : Args)
| SetStoryArgs (i : string) (newArgs : Args)
| ClearError
| SetError (err : ErrorLike)
| SetSelection (selection : Selection)
| PushToManager
| IncrementRevision
| CleanHooks (i : string)
| CleanHooksForKind (k : string).

Definition run (c : call) : M unit :=
  match c with
  | StartConfiguring => startConfiguring
  | FinishConfiguring => finishConfiguring
  | AddGlobalMetadata m => addGlobalMetadata m
  | ClearGlobalDecorators => clearGlobalDecorators
  | EnsureKind k => ensureKind k
  | AddKindMetadata k m => addKindMetadata k m
  | AddParameterEnhancer e => addParameterEnhancer e
  | AddStory a o => addStory a o
  | Remove i u => remove i u
  | RemoveStoryKind k u => removeStoryKind k u
  | SetGlobalArgs a => setGlobalArgs a
  | SetStoryArgs i a => setStoryArgs i a
  | ClearError => clearError
  | SetError e => setError e
  | SetSelection sel => setSelection sel
  | PushToManager => pushToManager
  | IncrementRevision => incrementRevision
  | CleanHooks i => cleanHooks i
  | CleanHooksForKind k => cleanHooksForKind k
  end.

(** The store after a history of calls; a call that throws leaves the
    store as it was when the exception was raised. *)
Definition history (cs : list call) (s : StoryStore) : StoryStore :=
  fold_left (fun s c => after (run c) s) cs s.

Inductive reachable : StoryStore -> Prop :=
| reachable_new : forall channel, reachable (newStoryStore channel)
| reachable_call : forall s c, reachable s -> reachable (after (run c) s).

End Extraction.

(** ** Listings *)

(** [raw().map(s => s.kind)]: reading [kind] of a [null] element throws. *)
Fixpoint kindsOf (l : list (option PublishedStoreItem))
  : completion (list string) :=
  match l with
  | [] => Normal []
  | None :: _ => Throw TypeError
  | Some p :: l' =>
      match kindsOf l' with
      | Normal r => Normal (kind (pub_item p) :: r)
      | Throw e => Throw e
      end
  end.

(** [Array.from(new Set(l))]: the first occurrence of every element, in the
    order of [l]; [seen] holds the elements already in the set. *)
Fixpoint Set_values (seen l : list string) : list string :=
  match l with
  | [] => []
  | x :: l' =>
      if existsb (String.eqb x) seen then Set_values seen l'
      else x :: Set_values (x :: seen) l'
  end.

Definition getStoryKinds (s : StoryStore) : completion (list string) :=
  match kindsOf (raw s None) with
  | Normal ks => Normal (Set_values [] ks)
  | Throw e => Throw e
  end.

(** [this.getStoriesForKind(kind).find(s => s.name === name)]: [None] is
    [undefined]. *)
Definition getRawStory (s : StoryStore) (k n : string)
  : completion (option PublishedStoreItem) :=
  match getStoriesForKind s k with
  | Normal l => Normal (find (fun p => String.eqb (name (pub_item p)) n) l)
  | Throw e => Throw e
  end.







(** [Array.prototype.sort(comp)], a stable sort, as an insertion sort: an
    element goes before the first element that does not compare below
    it.  A comparator that throws returns [None]. *)
Section ArraySort.
Context {A : Type}.
Variable comp : A -> A -> option Z.


End ArraySort.




(** * Vocabulary of the properties *)

(** ** The keys of the properties *)



(** ** Parameters of a registered story *)

(** The parameters of the group [k] as [addStory] finds them after
    [ensureKind]. *)
Definition kindParameters (s : StoryStore) (k : string) : Parameters :=
  match oget k (_kinds s) with
  | Some km => kind_parameters km
  | None => []
  end.

Definition storyParametersOf (a : AddStoryArgs) : Parameters :=
  match a_parameters a with Some p => p | None => [] end.

(** The deep merge of the global, group and story parameters, then the
    enhancers in registration order. *)
Definition resolvedParameters (s : StoryStore) (a : AddStoryArgs) : Parameters :=
  enhance (_parameterEnhancers s) (a_id a) (a_kind a) (a_name a)
    (combineParameters
       [md_parameters (_globalMetadata s);
        kindParameters s (a_kind a);
        storyParametersOf a]).




(** [base] after the additions, each merged by [combineParameters] *)
Definition merged (base : Parameters) (additions : list Parameters) : Parameters :=
  fold_left (fun acc p => combineParameters [acc; p]) additions base.

(** ** Invariants of the store *)

(** Every record of [_stories] is stored under its own id, ids are not
    repeated, and the group of every record is known to [_kinds]. *)
Definition well_formed (s : StoryStore) : Prop :=
  NoDup (okeys (_stories s))
  /\ forall i st, In (i, st) (_stories s) ->
       id st = i /\ exists km, oget (kind st) (_kinds s) = Some km.

(** How one call may change [_stories]. *)
Definition stories_step (s s' : StoryStore) : Prop :=
  (NoDup (okeys (_stories s)) -> NoDup (okeys (_stories s')))
  /\ forall i st, In (i, st) (_stories s') ->
       (exists st0, In (i, st0) (_stories s) /\ id st = id st0 /\ kind st = kind st0)
       \/ (id st = i /\ exists km, oget (kind st) (_kinds s') = Some km).

Definition kinds_grow (s s' : StoryStore) : Prop :=
  forall k md, oget k (_kinds s) = Some md ->
    exists md', oget k (_kinds s') = Some md' /\ order md' = order md.


Definition same_registry (s s' : StoryStore) : Prop :=
  _kinds s' = _kinds s /\ _stories s' = _stories s
  /\ _configuring s' = _configuring s /\ _channel s' = _channel s
  /\ _globalMetadata s' = _globalMetadata s
  /\ _parameterEnhancers s' = _parameterEnhancers s
  /\ _selection s' = _selection s /\ _globalArgs s' = _globalArgs s.


(** The [reduce] of [removeStoryKind] *)
Definition withoutKind (k : string) (entries : list entry) (acc : obj StoreItem)
  : obj StoreItem :=
  fold_left
    (fun acc p =>
       if negb (String.eqb (kind (snd p)) k)
       then oset (fst p) (snd p) acc else acc)
    entries acc.

(** ** Sorting and extraction *)

(** [l'] is the stable sort of [l] by [key]: it is in ascending order of
    [key], and the elements of every key are those of [l], in the order
    they have in [l]. *)
Definition sorted_by {A} (key : A -> Z) (l : list A) : Prop :=
  StronglySorted (fun a b => key a <= key b) l.

Definition with_key {A} (key : A -> Z) (n : Z) (l : list A) : list A :=
  filter (fun x => key x =? n) l.

Definition stable_sort_of {A} (key : A -> Z) (l l' : list A) : Prop :=
  sorted_by key l' /\ forall n, with_key key n l' = with_key key n l.

Definition good_runs {A} (P : A -> Prop) (key : A -> Z) (runs : list (list A)) : Prop :=
  Forall (fun run => Forall P run /\ sorted_by key run) runs.

(** One step of the [reduce] of [extract], for a given inclusion test *)
Definition assign_included (inc : StoreItem -> bool)
    (a : obj Extracted) (p : entry) : obj Extracted :=
  if inc (snd p) then Object_assign a [(fst p, toExtracted (snd p))] else a.

Definition included (inc : StoreItem -> bool) (l : list entry) : list entry :=
  filter (fun p => inc (snd p)) l.

(** The first record, in the order of [Object.keys], whose
    [parameters.options] is truthy. *)
Definition deciding_story (s : StoryStore) : option entry :=
  find (fun e => truthy (prop (parameters (snd e)) "options"))
    (oentries (_stories s)).

(** The sort specification that [extract] honours: the [options.storySort]
    of the deciding story, when that story has a non-empty id and the
    value is truthy. *)
Definition custom_sort (s : StoryStore) : option value :=
  match deciding_story s with
  | Some (i, st) =>
      let p := get (prop (parameters st) "options") "storySort" in
      if truthy_string i && truthy p then Some p else None
  | None => None
  end.

(** The sort specification that the deciding story declares: its
    [options.storySort], when the value is truthy. *)
Definition declared_sort (s : StoryStore) : option value :=
  match deciding_story s with
  | Some (_, st) =>
      let p := get (prop (parameters st) "options") "storySort" in
      if truthy p then Some p else None
  | None => None
  end.

(** The group order that [extract] compares by. *)
Definition kindOrder (s : StoryStore) (e : entry) : Z :=
  match oget (kind (snd e)) (_kinds s) with
  | Some km => order km
  | None => 0
  end.

(** [includeDocsOnly: true] was passed *)
Definition wants_docsOnly (options : option StoryOptions) : bool :=
  match options with
  | Some o => match includeDocsOnly o with Some true => true | _ => false end
  | None => false
  end.

(** ** Events *)

Definition is_render (e : event) : bool :=
  match e with RENDER_CURRENT_STORY => true | _ => false end.

Definition is_selection_set (e : event) : bool :=
  match e with CURRENT_STORY_WAS_SET _ => true | _ => false end.

(** ** Frames *)

(** The method [m] leaves the part [proj] of the store as it finds it,
    however it completes. *)
Definition keeps {X A : Type} (proj : StoryStore -> X) (m : M A) : Prop :=
  forall s, proj (after m s) = proj s.

(** The number of [incrementRevision] calls of a history *)
Definition increments (cs : list call) : Z :=
  Z.of_nat
    (List.length
       (filter (fun c => match c with IncrementRevision => true | _ => false end)
          cs)).


(** ** The record that [addStory] builds *)

Definition kindDecorators (s : StoryStore) (k : string) : list DecoratorFunction :=
  match oget k (_kinds s) with
  | Some km => kind_decorators km
  | None => []
  end.

Definition storyDecoratorsOf (a : AddStoryArgs) : list DecoratorFunction :=
  match a_decorators a with Some d => d | None => [] end.

(** The record registered by [addStory a o] on the store [s], given the
    default arguments [d] read from the resolved [argTypes]. *)
Definition newStoreItem (s : StoryStore) (a : AddStoryArgs) (o : AddStoryOptions)
    (d : Args) : StoreItem :=
  {| id := a_id a; kind := a_kind a; name := a_name a; story := a_name a;
     hooks := hooksCreated s;
     getDecorated :=
       {| dec_applyDecorators := applyDecorators o;
          dec_passArgsFirst :=
            truthy (prop (resolvedParameters s a) "passArgsFirst");
          dec_original := a_storyFn a;
          dec_decorators :=
            storyDecoratorsOf a ++ kindDecorators s (a_kind a)
              ++ md_decorators (_globalMetadata s) |};
     getOriginal := a_storyFn a;
     parameters := resolvedParameters s a;
     args := Object_assign (Object_assign [] d)
               (own_entries (initialArgs (resolvedParameters s a))) |}.

(** The store when [addStory a] reaches the computation of the default
    arguments: the warning is logged, the group exists, the hooks context
    is created. *)
Definition addStory_prepared (s : StoryStore) (a : AddStoryArgs) : StoryStore :=
  set_hooksCreated (S (hooksCreated s))
    (after (ensureKind (a_kind a))
       (if ohas (a_id a) (_stories s)
        then set_logged (logged s ++ [Warn_story_exists (a_id a)]) s
        else s)).

(** The record [st] with its arguments replaced, as [setStoryArgs] does *)
Definition withArgs (st : StoreItem) (newArgs : Args) : StoreItem :=
  {| id := id st; kind := kind st; name := name st; story := story st;
     hooks := hooks st; getDecorated := getDecorated st;
     getOriginal := getOriginal st; parameters := parameters st;
     args := newArgs |}.

(** Where a record found after the call [c] comes from: it was there
    before, or [setStoryArgs] gave it new arguments, or [addStory] built
    it. *)
Definition story_origin (c : call) (s s' : StoryStore) (i : string)
    (st : StoreItem) : Prop :=
  In (i, st) (_stories s)
  \/ (exists st0 newArgs,
        c = SetStoryArgs i newArgs /\ In (i, st0) (_stories s)
        /\ st = withArgs st0 (spread2 (args st0) newArgs))
  \/ (exists a o d,
        c = AddStory a o /\ i = a_id a /\ st = newStoreItem s a o d
        /\ hooksCreated s' = S (hooksCreated s)).

(** The hooks contexts of a store: every record has one of its own, created
    by the store. *)
Definition hooks_well_formed (s : StoryStore) : Prop :=
  (forall i st, In (i, st) (_stories s) -> (hooks st < hooksCreated s)%nat)
  /\ (forall i st j st',
        In (i, st) (_stories s) -> In (j, st') (_stories s) ->
        hooks st = hooks st' -> i = j).

(** The argument objects of a store have no repeated key. *)
Definition args_well_formed (s : StoryStore) : Prop :=
  NoDup (okeys (_globalArgs s))
  /\ forall i st, In (i, st) (_stories s) -> NoDup (okeys (args st)).

(** The groups of a store: names are not repeated, and the orders are
    numbers below the count of groups, each used once. *)
Definition kinds_wf (kinds : obj KindMetadata) : Prop :=
  NoDup (okeys kinds)
  /\ (forall k km, In (k, km) kinds ->
        0 <= order km < Z.of_nat (List.length kinds))
  /\ (forall k km k' km',
        In (k, km) kinds -> In (k', km') kinds ->
        order km = order km' -> k = k').

Definition kinds_well_formed (s : StoryStore) : Prop := kinds_wf (_kinds s).

(** The method [m] keeps the property [Q] of the part [proj] of the store. *)
Definition preserves {X A : Type} (proj : StoryStore -> X) (Q : X -> Prop)
    (m : M A) : Prop :=
  forall s, Q (proj s) -> Q (proj (after m s)).

(** The calls that assign to [_stories] *)
Definition assigns_stories (c : call) : bool :=
  match c with
  | AddStory _ _ | Remove _ _ | RemoveStoryKind _ _ | SetStoryArgs _ _ => true
  | _ => false
  end.

(** Two records are the same registration: they differ in their
    arguments at most. *)
Definition same_registration (st st' : StoreItem) : Prop :=
  id st' = id st /\ kind st' = kind st /\ name st' = name st
  /\ story st' = story st /\ hooks st' = hooks st
  /\ getDecorated st' = getDecorated st /\ getOriginal st' = getOriginal st
  /\ parameters st' = parameters st.

(** The call is not a registration under the id [i]. *)
Definition not_addStory (i : string) (c : call) : Prop :=
  match c with
  | AddStory a _ => a_id a <> i
  | _ => True
  end.


(** ** Arguments and decorators of a new story *)









(** ** Listings *)

(** The records that [raw()] lists, in the order of
    [Object.values(_stories)]: all but the documentation-only ones. *)
Definition listedStories (s : StoryStore) : list StoreItem :=
  filter (fun st => includeStory st None) (ovalues (_stories s)).


(** A record as [fromId] hands it out *)
Definition published (s : StoryStore) (st : StoreItem) : PublishedStoreItem :=
  {| pub_item := st; pub_globalArgs := _globalArgs s |}.





(** ** Events, selection and error *)

(** The calls that reach an [emit] of the channel *)
Definition emits (c : call) : bool :=
  match c with
  | FinishConfiguring | PushToManager | SetGlobalArgs _ | SetStoryArgs _ _
  | SetError _ | SetSelection _ => true
  | _ => false
  end.

Definition writes_selection (c : call) : bool :=
  match c with SetSelection _ => true | _ => false end.

Definition writes_error (c : call) : bool :=
  match c with SetError _ | ClearError => true | _ => false end.


(** ** Example stores *)

(** A comparator environment for the examples: every function value
    compares entries by descending id. *)
Definition by_descending_id : Comparators :=
  {| call_comparator := fun _ a b =>
       if String.ltb (fst a) (fst b) then 1
       else if String.eqb (fst a) (fst b) then 0 else -1;
     storySort := fun _ _ _ => 0 |}.

Definition example_story (i k : string) (p : Parameters) : AddStoryArgs :=
  {| a_id := i; a_kind := k; a_name := i; a_storyFn := 0%nat;
     a_parameters := Some p; a_decorators := None |}.

Definition safe : AddStoryOptions :=
  {| applyDecorators := 0%nat; allowUnsafe := false |}.

Definition example_metadata (p : Parameters) : StoryMetadata :=
  {| md_parameters := p; md_decorators := [] |}.

Definition example_selection : Selection :=
  {| storyId := "a--1"; viewMode := "story" |}.

(** An enhancer that records the id of the story under [enhancedId]. *)
Definition example_enhancer : ParameterEnhancer :=
  fun ctx => [("enhancedId", VStr (ctx_id ctx))].


Definition configured_store : StoryStore :=
  history by_descending_id
    [AddStory (example_story "b--1" "b" []) safe;
     AddStory (example_story "a--1" "a" [("docsOnly", VBool true)]) safe;
     AddStory (example_story "b--2" "b" []) safe;
     FinishConfiguring]
    (newStoryStore (Some [])).

(** A store whose first story declares a sort function *)
Definition sorted_store : StoryStore :=
  history by_descending_id
    [AddStory (example_story "a--1" "a"
                 [("options", VObj [("storySort", VFun 0%nat)])]) safe;
     AddStory (example_story "b--1" "b" []) safe;
     AddStory (example_story "a--2" "a" []) safe]
    (newStoryStore None).

(** * Properties *)

(** ** Objects *)

Section ObjectFacts.
Context {A : Type}.
Implicit Types (o : obj A) (k : string) (v : A).

Lemma oget_oreplace_eq k v o :
  ohas k o = true -> oget k (oreplace k v o) = Some v.
Proof.
  unfold ohas. induction o as [|[k' v'] o IH]; simpl; [discriminate|].
  destruct (String.eqb k k') eqn:E; simpl; rewrite E; auto.
Qed.

Lemma oget_oinsert_eq k v o :
  ohas k o = false -> oget k (oinsert k v o) = Some v.
Proof.
  unfold ohas. induction o as [|[k' v'] o IH]; simpl.
  - now rewrite String.eqb_refl.
  - destruct (String.eqb k k') eqn:E; [discriminate|]. intros H.
    destruct (comes_before k k'); simpl.
    + now rewrite String.eqb_refl.
    + rewrite E. auto.
Qed.

Lemma oget_oset_eq k v o : oget k (oset k v o) = Some v.
Proof.
  unfold oset. destruct (ohas k o) eqn:E.
  - now apply oget_oreplace_eq.
  - now apply oget_oinsert_eq.
Qed.

Lemma oget_oreplace_neq k k' v o :
  k <> k' -> oget k' (oreplace k v o) = oget k' o.
Proof.
  intros N. induction o as [|[k0 v0] o IH]; simpl; auto.
  destruct (String.eqb k k0) eqn:E; simpl.
  - apply String.eqb_eq in E. subst k0.
    destruct (String.eqb k' k) eqn:E'; auto.
    apply String.eqb_eq in E'. congruence.
  - now rewrite IH.
Qed.

Lemma oget_oinsert_neq k k' v o :
  k <> k' -> oget k' (oinsert k v o) = oget k' o.
Proof.
  intros N. induction o as [|[k0 v0] o IH]; simpl.
  - destruct (String.eqb k' k) eqn:E; auto.
    apply String.eqb_eq in E. congruence.
  - destruct (comes_before k k0); simpl.
    + destruct (String.eqb k' k) eqn:E; auto.
      apply String.eqb_eq in E. congruence.
    + now rewrite IH.
Qed.

Lemma oget_oset_neq k k' v o :
  k <> k' -> oget k' (oset k v o) = oget k' o.
Proof.
  intros N. unfold oset. destruct (ohas k o).
  - now apply oget_oreplace_neq.
  - now apply oget_oinsert_neq.
Qed.

Lemma oget_Some_In k v o : oget k o = Some v -> In (k, v) o.
Proof.
  induction o as [|[k' v'] o IH]; simpl; [discriminate|].
  destruct (String.eqb k k') eqn:E.
  - apply String.eqb_eq in E. intros [= ->]. subst. now left.
  - intros H. right. auto.
Qed.

Lemma oget_None_notin k o : oget k o = None <-> ~ In k (okeys o).
Proof.
  induction o as [|[k' v'] o IH]; simpl.
  - tauto.
  - destruct (String.eqb k k') eqn:E.
    + apply String.eqb_eq in E. subst. split; [discriminate|].
      intros H. exfalso. apply H. now left.
    + apply String.eqb_neq in E. rewrite IH. split.
      * intros H [H'|H']; [congruence|tauto].
      * intros H H'. apply H. now right.
Qed.

Lemma In_oget k v o : NoDup (okeys o) -> In (k, v) o -> oget k o = Some v.
Proof.
  induction o as [|[k' v'] o IH]; simpl; [tauto|].
  intros ND [E|H].
  - injection E as -> ->. now rewrite String.eqb_refl.
  - inversion ND as [|? ? Hn ND']; subst.
    destruct (String.eqb k k') eqn:E.
    + apply String.eqb_eq in E. subst. exfalso. apply Hn.
      change (In (fst (k', v)) (map fst o)). now apply in_map.
    + auto.
Qed.

Lemma okeys_oreplace k v o : okeys (oreplace k v o) = okeys o.
Proof.
  induction o as [|[k' v'] o IH]; simpl; auto.
  destruct (String.eqb k k'); simpl; [reflexivity|]. now f_equal.
Qed.

Lemma oinsert_Permutation k v o : Permutation ((k, v) :: o) (oinsert k v o).
Proof.
  induction o as [|[k' v'] o IH]; simpl; auto.
  destruct (comes_before k k'); auto.
  eapply perm_trans; [apply perm_swap|]. now apply perm_skip.
Qed.

Lemma oinsert_append k v o :
  array_index k = None -> oinsert k v o = o ++ [(k, v)].
Proof.
  intros H. induction o as [|[k' v'] o IH]; simpl; auto.
  unfold comes_before. rewrite H. now rewrite IH.
Qed.

Lemma NoDup_oset k v o : NoDup (okeys o) -> NoDup (okeys (oset k v o)).
Proof.
  intros ND. unfold oset. destruct (ohas k o) eqn:E.
  - now rewrite okeys_oreplace.
  - unfold ohas in E. destruct (oget k o) eqn:G; [discriminate|].
    apply oget_None_notin in G.
    eapply Permutation_NoDup.
    + unfold okeys. apply Permutation_map. apply oinsert_Permutation.
    + simpl. now constructor.
Qed.

Lemma In_oset k v o p : In p (oset k v o) -> p = (k, v) \/ In p o.
Proof.
  unfold oset. destruct (ohas k o).
  - induction o as [|[k' v'] o IH]; simpl; [tauto|].
    destruct (String.eqb k k') eqn:E'.
    + apply String.eqb_eq in E'. subst k'. simpl. intros [<-|H]; auto.
    + simpl. intros [<-|H]; auto. destruct (IH H); auto.
  - intros H. eapply Permutation_in in H.
    2: apply Permutation_sym, oinsert_Permutation.
    destruct H as [<-|H]; auto.
Qed.

Lemma In_odelete k o p : In p (odelete k o) -> In p o /\ fst p <> k.
Proof.
  unfold odelete. rewrite filter_In. intros [H E]. split; auto.
  intros <-. now rewrite String.eqb_refl in E.
Qed.

Lemma NoDup_odelete k o : NoDup (okeys o) -> NoDup (okeys (odelete k o)).
Proof.
  unfold odelete, okeys. induction o as [|[k' v'] o IH]; simpl; auto.
  intros ND. inversion ND as [|? ? Hn ND']; subst.
  destruct (String.eqb k k'); simpl; auto.
  constructor; auto. intros H. apply Hn.
  apply in_map_iff in H. destruct H as [x [Hx Hin]].
  apply filter_In in Hin. apply in_map_iff. exists x. tauto.
Qed.



Lemma oget_Object_assign k (target src : obj A) :
  NoDup (okeys src) ->
  oget k (Object_assign target src) =
  match oget k src with
  | Some v => Some v
  | None => oget k target
  end.
Proof.
  unfold Object_assign. revert target.
  induction src as [|[j v] src IH]; intros target ND; simpl; auto.
  inversion ND as [|? ? Hj ND']; subst. rewrite IH by assumption.
  destruct (String.eqb k j) eqn:E.
  - apply String.eqb_eq in E. subst j.
    replace (oget k src) with (@None A)
      by (symmetry; now apply oget_None_notin).
    apply oget_oset_eq.
  - apply String.eqb_neq in E.
    destruct (oget k src); auto. apply oget_oset_neq. congruence.
Qed.

(** [{...a, ...b}] is a shallow merge: a key of [b] overrides the whole
    value that [a] has for it. *)
Lemma oget_spread2 k (a b : obj A) :
  NoDup (okeys a) -> NoDup (okeys b) ->
  oget k (spread2 a b) =
  match oget k b with
  | Some v => Some v
  | None => oget k a
  end.
Proof.
  intros Na Nb. unfold spread2. rewrite !oget_Object_assign by assumption.
  simpl. now destruct (oget k b), (oget k a).
Qed.


End ObjectFacts.

(** ** Stepping through a method *)

Ltac unfold_methods :=
  cbv [after outcome
       startConfiguring addGlobalMetadata clearGlobalDecorators ensureKind
       updateKind addKindMetadata addParameterEnhancer whenConfiguring addStory
       remove cleanHooks removeStoryKind setGlobalArgs setStoryArgs clearError
       setError setSelection incrementRevision hooks_clean emit ifChannel lift
       bind this update ret throw].

Ltac split_matches :=
  repeat match goal with
    | |- context [match ?x with _ => _ end] =>
        lazymatch x with
        | context [match _ with _ => _ end] => fail
        | _ => destruct x eqn:?; simpl
        end
    end.

(** ** What [clean()] calls leave untouched *)

Lemma same_registry_refl s : same_registry s s.
Proof. repeat split. Qed.

Lemma same_registry_trans s1 s2 s3 :
  same_registry s1 s2 -> same_registry s2 s3 -> same_registry s1 s3.
Proof.
  unfold same_registry. intros (?&?&?&?&?&?&?&?) (?&?&?&?&?&?&?&?).
  repeat split; congruence.
Qed.

Lemma cleanHooks_same_registry i s : same_registry s (after (cleanHooks i) s).
Proof. unfold_methods. destruct (oget i (_stories s)); simpl; repeat split. Qed.

Lemma forEach_cleanHooks_same_registry (l : list PublishedStoreItem) s :
  same_registry s (after (forEach l (fun p => cleanHooks (id (pub_item p)))) s).
Proof.
  revert s. induction l as [|p l IH]; intros s; simpl.
  - apply same_registry_refl.
  - unfold after, bind.
    pose proof (cleanHooks_same_registry (id (pub_item p)) s) as H.
    unfold after in H.
    destruct (cleanHooks (id (pub_item p)) s) as [[[]|e] s1]; simpl in *; auto.
    eapply same_registry_trans; [exact H|]. apply IH.
Qed.

Lemma cleanHooksForKind_same_registry k s :
  same_registry s (after (cleanHooksForKind k) s).
Proof.
  unfold cleanHooksForKind, after, bind, this, lift.
  destruct (getStoriesForKind s k) as [l|e]; simpl.
  - apply forEach_cleanHooks_same_registry.
  - apply same_registry_refl.
Qed.

(** ** Group order (claim C7) *)

Lemma kinds_grow_refl s : kinds_grow s s.
Proof. intros k md H. eauto. Qed.

Lemma kinds_grow_same s s' : _kinds s' = _kinds s -> kinds_grow s s'.
Proof. intros E k md H. rewrite E. eauto. Qed.

Lemma kinds_grow_trans s1 s2 s3 :
  kinds_grow s1 s2 -> kinds_grow s2 s3 -> kinds_grow s1 s3.
Proof.
  intros H12 H23 k md H. destruct (H12 k md H) as [md' [H' E']].
  destruct (H23 k md' H') as [md'' [H'' E'']]. exists md''. split; congruence.
Qed.

Lemma kinds_grow_oset s s' k0 km :
  _kinds s' = oset k0 km (_kinds s) ->
  (forall md, oget k0 (_kinds s) = Some md -> order km = order md) ->
  kinds_grow s s'.
Proof.
  intros E Ho k md H. rewrite E. destruct (String.eqb k0 k) eqn:Ek.
  - apply String.eqb_eq in Ek. subst k0. rewrite oget_oset_eq. eauto.
  - apply String.eqb_neq in Ek. rewrite oget_oset_neq by auto. eauto.
Qed.

Lemma ensureKind_kinds_grow k s : kinds_grow s (after (ensureKind k) s).
Proof.
  unfold_methods. destruct (oget k (_kinds s)) eqn:E; simpl.
  - apply kinds_grow_refl.
  - eapply kinds_grow_oset; [reflexivity|]. intros md H. congruence.
Qed.

Lemma updateKind_kinds_grow k f s :
  (forall km, order (f km) = order km) ->
  kinds_grow s (after (updateKind k f) s).
Proof.
  intros Hf. unfold_methods. destruct (oget k (_kinds s)) eqn:E; simpl.
  - eapply kinds_grow_oset; [reflexivity|]. intros md H.
    rewrite Hf. congruence.
  - apply kinds_grow_refl.
Qed.

Lemma bind_kinds_grow {A B} (m : M A) (f : A -> M B) s :
  kinds_grow s (after m s) ->
  (forall a s', kinds_grow s' (after (f a) s')) ->
  kinds_grow s (after (bind m f) s).
Proof.
  unfold after, bind. intros Hm Hf.
  destruct (m s) as [[a|e] s1]; simpl in *; auto.
  eapply kinds_grow_trans; [exact Hm|]. apply Hf.
Qed.

Lemma addKindMetadata_kinds_grow k m s :
  kinds_grow s (after (addKindMetadata k m) s).
Proof.
  unfold addKindMetadata.
  apply bind_kinds_grow; [apply ensureKind_kinds_grow|]. intros _ s1.
  apply bind_kinds_grow; [now apply updateKind_kinds_grow|]. intros _ s2.
  now apply updateKind_kinds_grow.
Qed.

Ltac kg_triv :=
  first [apply kinds_grow_refl | apply kinds_grow_same; reflexivity].

Lemma whenConfiguring_unchanged u what s :
  after (whenConfiguring u what) s = s.
Proof. unfold_methods. now destruct (negb (_configuring s) && negb u). Qed.

Lemma addStory_kinds_grow a o s : kinds_grow s (after (addStory a o) s).
Proof.
  unfold addStory.
  apply bind_kinds_grow.
  { rewrite whenConfiguring_unchanged. kg_triv. }
  intros _ s1. apply bind_kinds_grow; [kg_triv|]. intros s1' s2.
  apply bind_kinds_grow.
  { destruct (ohas _ _); kg_triv. }
  intros _ s3. apply bind_kinds_grow; [apply ensureKind_kinds_grow|].
  intros _ s4. apply bind_kinds_grow; [kg_triv|]. intros s4' s5.
  destruct (oget (a_kind a) (_kinds s4')); [|kg_triv].
  apply bind_kinds_grow; [kg_triv|]. intros _ s6.
  apply bind_kinds_grow.
  { destruct (defaultArgs _); kg_triv. }
  intros d s7. kg_triv.
Qed.

Lemma removeStoryKind_kinds_grow k u s :
  kinds_grow s (after (removeStoryKind k u) s).
Proof.
  unfold removeStoryKind.
  apply bind_kinds_grow.
  { rewrite whenConfiguring_unchanged. kg_triv. }
  intros _ s1. apply bind_kinds_grow; [kg_triv|]. intros s1' s2.
  destruct (oget k (_kinds s1')); [|kg_triv].
  apply bind_kinds_grow; [now apply updateKind_kinds_grow|]. intros _ s3.
  apply bind_kinds_grow; [now apply updateKind_kinds_grow|]. intros _ s4.
  apply bind_kinds_grow; [|intros; kg_triv].
  apply kinds_grow_same. apply cleanHooksForKind_same_registry.
Qed.

(** ** What [addStory] registers *)






(** ** Well-formed stores *)

Lemma stories_step_same s s' : _stories s' = _stories s -> stories_step s s'.
Proof.
  intros E. split; rewrite E; auto. intros i st H. left. eauto.
Qed.

Lemma well_formed_step s s' :
  kinds_grow s s' -> stories_step s s' -> well_formed s -> well_formed s'.
Proof.
  intros Hk [Hn Hs] [ND W]. split; auto.
  intros i st H. destruct (Hs i st H) as [(st0 & H0 & Ei & Ek)|H1]; auto.
  destruct (W i st0 H0) as [E [km Hkm]]. split; [congruence|].
  destruct (Hk _ _ Hkm) as (km' & Hkm' & _). rewrite Ek. eauto.
Qed.

Lemma addStory_stories_step a o s : stories_step s (after (addStory a o) s).
Proof.
  unfold addStory. unfold_methods.
  destruct (negb (_configuring s) && negb (allowUnsafe o)); simpl.
  { now apply stories_step_same. }
  destruct (ohas (a_id a) (_stories s)); simpl;
    destruct (oget (a_kind a) (_kinds s)) eqn:E; simpl;
    rewrite ?E, ?oget_oset_eq; simpl;
    match goal with |- context [defaultArgs ?p] => destruct (defaultArgs p) end;
    simpl; try (now apply stories_step_same);
    (split; simpl; [apply NoDup_oset|]; intros i st H;
     apply In_oset in H; destruct H as [H|H];
     [injection H as Hi Hst; subst i st; right; simpl;
      rewrite ?E, ?oget_oset_eq; eauto
     |left; eauto]).
Qed.

Lemma remove_stories_step i u s : stories_step s (after (remove i u) s).
Proof.
  unfold_methods.
  destruct (negb (_configuring s) && negb u); simpl.
  { now apply stories_step_same. }
  assert (H : stories_step s (set_stories (odelete i (_stories s)) s)).
  { split; simpl; [apply NoDup_odelete|]. intros j st H.
    apply In_odelete in H. left. exists st. tauto. }
  destruct (oget i (_stories s)); simpl; exact H.
Qed.

Lemma In_withoutKind k entries acc p :
  In p (withoutKind k entries acc) ->
  In p acc \/ (In p entries /\ kind (snd p) <> k).
Proof.
  unfold withoutKind. revert acc.
  induction entries as [|[i st] l IH]; intros acc; simpl; auto.
  intros H. apply IH in H. destruct H as [H|[H N]]; [|now auto].
  destruct (String.eqb (kind st) k) eqn:E; simpl in H; auto.
  apply In_oset in H. destruct H as [->|H]; auto.
  right. split; auto. simpl. now apply String.eqb_neq.
Qed.

Lemma NoDup_withoutKind k entries acc :
  NoDup (okeys acc) -> NoDup (okeys (withoutKind k entries acc)).
Proof.
  unfold withoutKind. revert acc.
  induction entries as [|[i st] l IH]; intros acc ND; simpl; auto.
  apply IH. destruct (negb (String.eqb (kind st) k)); auto.
  now apply NoDup_oset.
Qed.

Lemma updateKind_same_stories k f s :
  _stories (after (updateKind k f) s) = _stories s.
Proof. unfold_methods. now destruct (oget k (_kinds s)). Qed.

Lemma bind_after {A B} (m : M A) (f : A -> M B) s :
  after (bind m f) s =
  match outcome m s with
  | Normal a => after (f a) (after m s)
  | Throw _ => after m s
  end.
Proof. unfold after, outcome, bind. now destruct (m s) as [[a|e] s1]. Qed.

Lemma removeStoryKind_stories k u s :
  _stories (after (removeStoryKind k u) s) = _stories s
  \/ _stories (after (removeStoryKind k u) s)
     = withoutKind k (oentries (_stories s)) [].
Proof.
  unfold removeStoryKind. rewrite bind_after, whenConfiguring_unchanged.
  destruct (outcome _ s); auto.
  rewrite bind_after. change (outcome this s) with (Normal s).
  change (after this s) with s. cbv iota beta.
  destruct (oget k (_kinds s)) eqn:E; [|now left].
  rewrite bind_after.
  pose proof (updateKind_same_stories k
    (fun km => {| order := order km; kind_parameters := [];
                  kind_decorators := kind_decorators km |}) s) as H1.
  destruct (outcome _ s); [|now left].
  set (s1 := after (updateKind _ _) s) in *.
  rewrite bind_after.
  pose proof (updateKind_same_stories k
    (fun km => {| order := order km; kind_parameters := kind_parameters km;
                  kind_decorators := [] |}) s1) as H2.
  destruct (outcome _ s1).
  2:{ left. congruence. }
  set (s2 := after (updateKind _ _) s1) in *.
  rewrite bind_after.
  destruct (cleanHooksForKind_same_registry k s2) as (_ & H3 & _).
  destruct (outcome _ s2).
  2:{ left. congruence. }
  right. unfold after at 1, update. simpl. unfold withoutKind, oentries.
  now rewrite H3, H2, H1.
Qed.

Lemma removeStoryKind_stories_step k u s :
  stories_step s (after (removeStoryKind k u) s).
Proof.
  destruct (removeStoryKind_stories k u s) as [E|E].
  - now apply stories_step_same.
  - split; rewrite E.
    + intros _. apply NoDup_withoutKind. constructor.
    + intros i st H. apply In_withoutKind in H.
      destruct H as [[]|[H _]]. left. eauto.
Qed.

Lemma setStoryArgs_stories_step i newArgs s :
  stories_step s (after (setStoryArgs i newArgs) s).
Proof.
  unfold_methods. destruct (oget i (_stories s)) as [st|] eqn:E; simpl.
  2:{ now apply stories_step_same. }
  assert (H : stories_step s
    (set_stories
       (oset i {| id := id st; kind := kind st; name := name st;
                  story := story st; hooks := hooks st;
                  getDecorated := getDecorated st;
                  getOriginal := getOriginal st; parameters := parameters st;
                  args := spread2 (args st) newArgs |} (_stories s)) s)).
  { split; simpl; [apply NoDup_oset|]. intros j st' H.
    apply In_oset in H. destruct H as [H|H]; [|left; eauto].
    injection H as Hj Hst. subst j st'. left. exists st. simpl.
    split; [now apply oget_Some_In|auto]. }
  destruct (_channel s); simpl; exact H.
Qed.

(** ** The stable sort *)

Section StableFacts.
Context {A : Type}.
Variable comp : A -> A -> option Z.
Variable P : A -> Prop.

Lemma merge_nil_l r : Stable.merge comp [] r = Some r.
Proof. now destruct r. Qed.

Lemma merge_nil_r l : Stable.merge comp l [] = Some l.
Proof. now destruct l. Qed.

Lemma merge_cons a l b r :
  Stable.merge comp (a :: l) (b :: r) =
  match comp a b with
  | None => None
  | Some c =>
      if c <=? 0 then option_map (cons a) (Stable.merge comp l (b :: r))
      else option_map (cons b) (Stable.merge comp (a :: l) r)
  end.
Proof. reflexivity. Qed.

Section Total.
Hypothesis comp_total : forall a b, P a -> P b -> comp a b <> None.

Lemma merge_total l r :
  Forall P l -> Forall P r ->
  exists m, Stable.merge comp l r = Some m /\ Permutation (l ++ r) m.
Proof.
  revert r. induction l as [|a l IHl]; intros r Hl Hr.
  - rewrite merge_nil_l. eauto.
  - induction r as [|b r IHr].
    + rewrite merge_nil_r, app_nil_r. eauto.
    + rewrite merge_cons.
      inversion Hl as [|? ? Pa Hl']; inversion Hr as [|? ? Pb Hr']; subst.
      destruct (comp a b) as [c|] eqn:E.
      2:{ exfalso. exact (comp_total a b Pa Pb E). }
      destruct (c <=? 0).
      * destruct (IHl (b :: r) Hl' Hr) as (m & -> & Hp). simpl.
        eexists. split; [reflexivity|]. simpl. now constructor.
      * destruct (IHr Hr') as (m & -> & Hp). simpl.
        eexists. split; [reflexivity|].
        eapply perm_trans; [|apply perm_skip; exact Hp].
        change (Permutation ((a :: l) ++ b :: r) (b :: (a :: l) ++ r)).
        apply Permutation_sym, Permutation_middle.
Qed.

Lemma pass_total_aux runs :
  Forall (Forall P) runs ->
  (exists runs', Stable.pass comp runs = Some runs'
     /\ Permutation (List.concat runs) (List.concat runs')
     /\ Forall (Forall P) runs'
     /\ (List.length runs' <= List.length runs)%nat
     /\ (2 <= List.length runs -> List.length runs' < List.length runs)%nat
     /\ (runs <> [] -> runs' <> []))
  /\ forall x, Forall P x ->
     (exists runs', Stable.pass comp (x :: runs) = Some runs'
     /\ Permutation (List.concat (x :: runs)) (List.concat runs')
     /\ Forall (Forall P) runs'
     /\ (List.length runs' <= S (List.length runs))%nat
     /\ (1 <= List.length runs -> List.length runs' < S (List.length runs))%nat
     /\ runs' <> []).
Proof.
  induction runs as [|r rest IH]; intros H.
  - split.
    + exists []. simpl. repeat split; auto; try lia.
    + intros x Hx. exists [x]. simpl. repeat split; auto; try lia.
      discriminate.
  - inversion H as [|? ? Hr Hrest]; subst.
    destruct (IH Hrest) as [IH0 IH1]. split.
    + destruct (IH1 r Hr) as (runs' & E & Hp & HP & Hl & Hl2 & Hne).
      exists runs'. repeat split; auto. simpl. intros. apply Hl2.
      simpl in *. lia.
    + intros x Hx. simpl.
      destruct (merge_total x r Hx Hr) as (m & -> & Hm).
      destruct IH0 as (runs' & -> & Hp & HP & Hl & Hl2 & Hne).
      exists (m :: runs'). split; [reflexivity|]. repeat split.
      * simpl. rewrite app_assoc. now apply Permutation_app.
      * constructor; auto. eapply Forall_forall. intros y Hy.
        eapply Permutation_in in Hy; [|apply Permutation_sym; exact Hm].
        apply in_app_or in Hy. rewrite Forall_forall in Hx, Hr.
        destruct Hy; auto.
      * simpl. lia.
      * simpl. lia.
      * discriminate.
Qed.

Lemma exec_total fuel runs :
  Forall (Forall P) runs -> (List.length runs <= fuel)%nat ->
  exists l, Stable.exec comp fuel runs = Some l
    /\ Permutation (List.concat runs) l.
Proof.
  revert runs. induction fuel as [|fuel IH]; intros runs HP Hl.
  - destruct runs; [|simpl in Hl; lia]. simpl. eauto.
  - destruct runs as [|r1 [|r2 rest]].
    + simpl. eauto.
    + simpl. rewrite app_nil_r. eauto.
    + destruct (pass_total_aux (r1 :: r2 :: rest) HP)
        as [(runs' & E & Hp & HP' & Hle & Hlt & Hne) _].
      change (Stable.exec comp (S fuel) (r1 :: r2 :: rest))
        with (match Stable.pass comp (r1 :: r2 :: rest) with
              | Some runs' => Stable.exec comp fuel runs'
              | None => None
              end).
      rewrite E.
      destruct (IH runs' HP') as (l & El & Hpl).
      { simpl in *. lia. }
      exists l. split; auto. eapply perm_trans; eauto.
Qed.

Lemma concat_singletons (l : list A) : List.concat (map (fun x => [x]) l) = l.
Proof. induction l; simpl; congruence. Qed.

Lemma inplace_total l :
  Forall P l ->
  exists l', Stable.inplace comp l = Some l' /\ Permutation l l'.
Proof.
  intros H. unfold Stable.inplace.
  destruct (exec_total (List.length l) (map (fun x => [x]) l))
    as (l' & E & Hp).
  - rewrite Forall_map. eapply Forall_impl; [|exact H]. auto.
  - now rewrite length_map.
  - rewrite concat_singletons in Hp. eauto.
Qed.
End Total.
End StableFacts.

(** ** Sorting by a key *)

Section KeyedFacts.
Context {A : Type}.
Variable comp : A -> A -> option Z.
Variable P : A -> Prop.
Variable key : A -> Z.
Hypothesis comp_key : forall a b, P a -> P b -> comp a b = Some (key a - key b).

Lemma with_key_app n (l r : list A) :
  with_key key n (l ++ r) = with_key key n l ++ with_key key n r.
Proof. apply filter_app. Qed.

Lemma with_key_above n (l : list A) :
  Forall (fun x => n < key x) l -> with_key key n l = [].
Proof.
  induction 1 as [|x l Hx _ IH]; simpl; auto.
  destruct (key x =? n) eqn:E; auto. apply Z.eqb_eq in E. lia.
Qed.

Lemma merge_keyed l r :
  Forall P l -> Forall P r -> sorted_by key l -> sorted_by key r ->
  exists m, Stable.merge comp l r = Some m
    /\ Permutation (l ++ r) m
    /\ sorted_by key m
    /\ forall n, with_key key n m = with_key key n l ++ with_key key n r.
Proof.
  unfold sorted_by.
  revert r. induction l as [|a l IHl]; intros r Hl Hr Sl Sr.
  - rewrite merge_nil_l. exists r. repeat split; auto.
  - induction r as [|b r IHr].
    + rewrite merge_nil_r, app_nil_r. exists (a :: l). repeat split; auto.
      intros n. now rewrite app_nil_r.
    + rewrite merge_cons.
      inversion Hl as [|? ? Pa Hl']; inversion Hr as [|? ? Pb Hr']; subst.
      inversion Sl as [|? ? Sl' Fa]; inversion Sr as [|? ? Sr' Fb]; subst.
      rewrite (comp_key a b Pa Pb).
      destruct (key a - key b <=? 0) eqn:E.
      * apply Z.leb_le in E.
        destruct (IHl (b :: r) Hl' Hr Sl' Sr) as (m & -> & Hp & Sm & Hk).
        exists (a :: m). split; [reflexivity|]. repeat split.
        -- simpl. now constructor.
        -- constructor; auto.
           eapply Permutation_Forall; [exact Hp|].
           apply Forall_app. split; auto. constructor; [lia|].
           eapply Forall_impl; [|exact Fb]. simpl. intros; lia.
        -- intros n. simpl. rewrite Hk. simpl.
           now destruct (key a =? n).
      * apply Z.leb_gt in E.
        destruct (IHr Hr' Sr') as (m & -> & Hp & Sm & Hk).
        exists (b :: m). split; [reflexivity|]. repeat split.
        -- eapply perm_trans; [|apply perm_skip; exact Hp].
           change (Permutation ((a :: l) ++ b :: r) (b :: (a :: l) ++ r)).
           apply Permutation_sym, Permutation_middle.
        -- constructor; auto.
           eapply Permutation_Forall; [exact Hp|].
           apply Forall_app. split; auto. constructor; [lia|].
           eapply Forall_impl; [|exact Fa]. simpl. intros; lia.
        -- intros n. simpl with_key at 1. rewrite Hk.
           change (with_key key n (b :: r))
             with (if key b =? n then b :: with_key key n r
                   else with_key key n r).
           destruct (key b =? n) eqn:Eb; auto.
           apply Z.eqb_eq in Eb.
           rewrite (with_key_above n (a :: l)); [reflexivity|].
           constructor; [lia|].
           eapply Forall_impl; [|exact Fa]. simpl. intros; lia.
Qed.

Lemma pass_keyed_aux runs :
  good_runs P key runs ->
  (exists runs', Stable.pass comp runs = Some runs'
     /\ good_runs P key runs'
     /\ (forall n, with_key key n (List.concat runs')
                   = with_key key n (List.concat runs))
     /\ (2 <= List.length runs -> List.length runs' < List.length runs)%nat
     /\ (List.length runs' <= List.length runs)%nat)
  /\ forall x, Forall P x -> sorted_by key x ->
     (exists runs', Stable.pass comp (x :: runs) = Some runs'
     /\ good_runs P key runs'
     /\ (forall n, with_key key n (List.concat runs')
                   = with_key key n (List.concat (x :: runs)))
     /\ (1 <= List.length runs -> List.length runs' < S (List.length runs))%nat
     /\ (List.length runs' <= S (List.length runs))%nat).
Proof.
  unfold good_runs.
  induction runs as [|r rest IH]; intros H.
  - split.
    + exists []. simpl. repeat split; auto; lia.
    + intros x Hx Sx. exists [x]. simpl. repeat split; auto; lia.
  - inversion H as [|? ? [Hr Sr] Hrest]; subst.
    destruct (IH Hrest) as [IH0 IH1]. split.
    + destruct (IH1 r Hr Sr) as (runs' & E & Hg & Hk & Hlt & Hle).
      exists runs'. repeat split; auto. simpl in *. intros. apply Hlt. lia.
    + intros x Hx Sx. simpl.
      destruct (merge_keyed x r Hx Hr Sx Sr) as (m & -> & Hp & Sm & Hm).
      destruct IH0 as (runs' & -> & Hg & Hk & Hlt & Hle).
      exists (m :: runs'). split; [reflexivity|]. repeat split.
      * constructor; auto. split; auto.
        eapply Permutation_Forall; [exact Hp|]. now apply Forall_app.
      * intros n. simpl. rewrite !with_key_app, Hm, Hk.
        now rewrite app_assoc.
      * simpl. lia.
      * simpl. lia.
Qed.

Lemma exec_keyed fuel runs :
  good_runs P key runs -> (List.length runs <= fuel)%nat ->
  exists l, Stable.exec comp fuel runs = Some l
    /\ stable_sort_of key (List.concat runs) l.
Proof.
  unfold stable_sort_of.
  revert runs. induction fuel as [|fuel IH]; intros runs Hg Hl.
  - destruct runs; [|simpl in Hl; lia]. simpl. exists [].
    repeat split; auto. constructor.
  - destruct runs as [|r1 [|r2 rest]].
    + simpl. exists []. repeat split; auto. constructor.
    + simpl. rewrite app_nil_r. exists r1. repeat split; auto.
      inversion Hg as [|? ? [_ S1] _]; auto.
    + destruct (pass_keyed_aux (r1 :: r2 :: rest) Hg)
        as [(runs' & E & Hg' & Hk & Hlt & Hle) _].
      change (Stable.exec comp (S fuel) (r1 :: r2 :: rest))
        with (match Stable.pass comp (r1 :: r2 :: rest) with
              | Some runs' => Stable.exec comp fuel runs'
              | None => None
              end).
      rewrite E.
      destruct (IH runs' Hg') as (l & El & Sl & Hkl).
      { simpl in *. lia. }
      exists l. repeat split; auto. intros n. now rewrite Hkl, Hk.
Qed.

Lemma inplace_keyed l :
  Forall P l ->
  exists l', Stable.inplace comp l = Some l' /\ stable_sort_of key l l'.
Proof.
  intros H. unfold Stable.inplace.
  destruct (exec_keyed (List.length l) (map (fun x => [x]) l))
    as (l' & E & Hs).
  - unfold good_runs. rewrite Forall_map.
    eapply Forall_impl; [|exact H]. intros a Pa. split; [now constructor|].
    repeat constructor.
  - now rewrite length_map.
  - rewrite concat_singletons in Hs. eauto.
Qed.
End KeyedFacts.

(** A stable sort has the elements of the list it sorts, and a list has
    one stable sort only. *)
Lemma stable_sort_of_In {A} (key : A -> Z) (l l' : list A) :
  stable_sort_of key l l' -> forall x, In x l <-> In x l'.
Proof.
  intros [_ H] x. split; intros Hx.
  - assert (Hk : In x (with_key key (key x) l)).
    { apply filter_In. split; auto. apply Z.eqb_refl. }
    rewrite <- H in Hk. now apply filter_In in Hk.
  - assert (Hk : In x (with_key key (key x) l')).
    { apply filter_In. split; auto. apply Z.eqb_refl. }
    rewrite H in Hk. now apply filter_In in Hk.
Qed.

Lemma sorted_by_head_least {A} (key : A -> Z) x (l : list A) z :
  sorted_by key (x :: l) -> In z (x :: l) -> key x <= key z.
Proof.
  intros S [<-|H]; [lia|]. inversion S as [|? ? _ F]; subst.
  rewrite Forall_forall in F. now apply F.
Qed.

Lemma with_key_In {A} (key : A -> Z) n (l : list A) z :
  In z (with_key key n l) <-> In z l /\ key z = n.
Proof. unfold with_key. rewrite filter_In, Z.eqb_eq. tauto. Qed.

Lemma sorted_same_keys_eq {A} (key : A -> Z) (l1 l2 : list A) :
  sorted_by key l1 -> sorted_by key l2 ->
  (forall n, with_key key n l1 = with_key key n l2) ->
  l1 = l2.
Proof.
  revert l2. induction l1 as [|x l1 IH]; intros l2 S1 S2 H.
  - destruct l2 as [|y l2]; auto. specialize (H (key y)). simpl in H.
    rewrite Z.eqb_refl in H. discriminate.
  - destruct l2 as [|y l2].
    { specialize (H (key x)). simpl in H. rewrite Z.eqb_refl in H.
      discriminate. }
    assert (Hxy : key x = key y).
    { assert (Hy : In y (x :: l1)).
      { apply (with_key_In key (key y)). rewrite H.
        apply with_key_In. split; [now left|reflexivity]. }
      assert (Hx : In x (y :: l2)).
      { apply (with_key_In key (key x)). rewrite <- H.
        apply with_key_In. split; [now left|reflexivity]. }
      pose proof (sorted_by_head_least key x l1 y S1 Hy).
      pose proof (sorted_by_head_least key y l2 x S2 Hx). lia. }
    pose proof (H (key x)) as Hk. simpl in Hk.
    rewrite Z.eqb_refl, <- Hxy, Z.eqb_refl in Hk.
    injection Hk as -> Hk. f_equal.
    inversion S1; inversion S2; subst. apply IH; auto.
    intros n. specialize (H n). simpl in H.
    destruct (key y =? n); [now injection H|exact H].
Qed.

Lemma stable_sort_of_unique {A} (key : A -> Z) (l l1 l2 : list A) :
  stable_sort_of key l l1 -> stable_sort_of key l l2 -> l1 = l2.
Proof.
  intros [S1 H1] [S2 H2]. apply (sorted_same_keys_eq key); auto.
  intros n. now rewrite H1, H2.
Qed.

(** ** Building the extracted object *)

Section ExtractFold.
Variable inc : StoreItem -> bool.

Lemma oget_assign_included l acc i :
  NoDup (okeys l) ->
  oget i (fold_left (assign_included inc) l acc) =
  match oget i (included inc l) with
  | Some st => Some (toExtracted st)
  | None => oget i acc
  end.
Proof.
  revert acc. induction l as [|[k st] l IH]; intros acc ND; simpl; auto.
  inversion ND as [|? ? Hk ND']; subst. rewrite IH by assumption.
  unfold assign_included. simpl. destruct (inc st) eqn:E; simpl; auto.
  destruct (String.eqb i k) eqn:Ei.
  - apply String.eqb_eq in Ei. subst k.
    assert (Hn : oget i (included inc l) = None).
    { apply oget_None_notin. intros H. apply Hk. unfold okeys, included in *.
      apply in_map_iff in H. destruct H as (x & Hx & Hin).
      apply filter_In in Hin. apply in_map_iff. exists x. tauto. }
    rewrite Hn. apply oget_oset_eq.
  - apply String.eqb_neq in Ei.
    destruct (oget i (included inc l)); auto.
    apply oget_oset_neq. congruence.
Qed.

Lemma fold_assign_included_append l acc :
  NoDup (okeys acc ++ okeys l) ->
  (forall i, In i (okeys l) -> array_index i = None) ->
  fold_left (assign_included inc) l acc =
  acc ++ map (fun p => (fst p, toExtracted (snd p))) (included inc l).
Proof.
  revert acc. induction l as [|[k st] l IH]; intros acc ND Hi; simpl.
  - now rewrite app_nil_r.
  - assert (Hk : ohas k acc = false).
    { unfold ohas. destruct (oget k acc) eqn:G; auto.
      apply oget_Some_In in G. exfalso.
      apply (NoDup_remove_2 _ _ _ ND). apply in_or_app. left.
      unfold okeys. apply in_map_iff. exists (k, e). auto. }
    unfold assign_included at 2. simpl. destruct (inc st); simpl.
    + unfold oset at 1. rewrite Hk. rewrite oinsert_append by (apply Hi; now left).
      rewrite IH.
      * now rewrite <- app_assoc.
      * unfold okeys in *. rewrite map_app. simpl. rewrite <- app_assoc.
        exact ND.
      * intros i H. apply Hi. now right.
    + apply IH.
      * simpl in ND. now apply NoDup_remove_1 in ND.
      * intros i H. apply Hi. now right.
Qed.
End ExtractFold.

Lemma NoDup_filter_keys {A} (g : string * A -> bool) (l : obj A) :
  NoDup (okeys l) -> NoDup (okeys (filter g l)).
Proof.
  unfold okeys. induction l as [|p l IH]; simpl; intros ND; [constructor|].
  inversion ND as [|? ? Hk ND']; subst.
  destruct (g p); simpl; auto. constructor; auto.
  intros Hin. apply Hk. apply in_map_iff in Hin.
  destruct Hin as (y & Hy & Hin). apply filter_In in Hin.
  apply in_map_iff. exists y. tauto.
Qed.

Lemma oget_filter_In {A} (f : A -> bool) (l : obj A) i x :
  NoDup (okeys l) ->
  oget i (filter (fun p => f (snd p)) l) = Some x <-> In (i, x) l /\ f x = true.
Proof.
  intros ND. split.
  - intros H. apply oget_Some_In in H. apply filter_In in H. simpl in H. tauto.
  - intros [H E]. apply In_oget.
    + now apply NoDup_filter_keys.
    + apply filter_In. simpl. tauto.
Qed.

Lemma find_key_entry {A} (f : A -> bool) (o : obj A) :
  NoDup (okeys o) ->
  forall l, incl l o ->
  find (fun key => match oget key o with Some x => f x | None => false end)
    (okeys l)
  = option_map fst (find (fun e => f (snd e)) l).
Proof.
  intros ND. induction l as [|[k v] l IH]; intros Hl; simpl; auto.
  rewrite (In_oget k v o ND) by (apply Hl; now left).
  destruct (f v); simpl; auto. apply IH. intros x Hx. apply Hl. now right.
Qed.

(** ** Metadata additions *)


Lemma addGlobalMetadata_unfold m s :
  addGlobalMetadata m s =
  (Normal tt,
   set_globalMetadata
     {| md_parameters :=
          combineParameters [md_parameters (_globalMetadata s); md_parameters m];
        md_decorators := md_decorators (_globalMetadata s) ++ md_decorators m |}
     s).
Proof. reflexivity. Qed.

(** ** Removing a group *)

Lemma bind_normal {A B} (m : M A) (f : A -> M B) s a s1 :
  m s = (Normal a, s1) -> bind m f s = f a s1.
Proof. intros H. unfold bind. now rewrite H. Qed.

Lemma removeStoryKind_unseen k u s :
  (_configuring s || u) = true -> oget k (_kinds s) = None ->
  removeStoryKind k u s = (Normal tt, s).
Proof.
  intros G H. unfold_methods.
  replace (negb (_configuring s) && negb u) with false
    by (destruct (_configuring s), u; simpl in *; congruence).
  simpl. now rewrite H.
Qed.

Lemma forEach_cleanHooks (l : list PublishedStoreItem) s :
  Forall (fun p => oget (id (pub_item p)) (_stories s) = Some (pub_item p)) l ->
  forEach l (fun p => cleanHooks (id (pub_item p))) s =
  (Normal tt,
   set_hooksCleaned (hooksCleaned s ++ map (fun p => hooks (pub_item p)) l) s).
Proof.
  revert s. induction l as [|p l IH]; intros s H; simpl.
  - rewrite app_nil_r. now destruct s.
  - inversion H as [|? ? Hp Hl]; subst.
    assert (E : cleanHooks (id (pub_item p)) s =
                (Normal tt,
                 set_hooksCleaned (hooksCleaned s ++ [hooks (pub_item p)]) s)).
    { unfold_methods. now rewrite Hp. }
    unfold bind. rewrite E, IH by exact Hl. simpl. now rewrite <- app_assoc.
Qed.

Lemma raw_well_formed s o :
  well_formed s ->
  raw s o =
  map (fun st => Some {| pub_item := st; pub_globalArgs := _globalArgs s |})
    (filter (fun st => includeStory st o) (ovalues (_stories s))).
Proof.
  intros [ND W]. unfold raw.
  assert (E : filter (fun _ : StoreItem => true) (ovalues (_stories s))
              = ovalues (_stories s)).
  { induction (ovalues (_stories s)); simpl; congruence. }
  rewrite E. apply map_ext_in. intros st H. apply filter_In in H.
  destruct H as [H _]. unfold ovalues in H. apply in_map_iff in H.
  destruct H as ([i st'] & <- & Hin). simpl.
  destruct (W i st' Hin) as [Ei _]. unfold fromId.
  now rewrite Ei, (In_oget i st' _ ND Hin).
Qed.

Lemma filterKind_published k g (l : list StoreItem) :
  filterKind k (map (fun st => Some {| pub_item := st; pub_globalArgs := g |}) l)
  = Normal (map (fun st => {| pub_item := st; pub_globalArgs := g |})
              (filter (fun st => String.eqb (kind st) k) l)).
Proof.
  induction l as [|st l IH]; simpl; auto. rewrite IH. simpl.
  now destruct (String.eqb (kind st) k).
Qed.

Lemma oget_withoutKind k (l : list entry) acc i :
  NoDup (okeys l) ->
  oget i (withoutKind k l acc) =
  match oget i l with
  | Some st => if String.eqb (kind st) k then oget i acc else Some st
  | None => oget i acc
  end.
Proof.
  unfold withoutKind. revert acc.
  induction l as [|[j st] l IH]; intros acc ND; simpl; auto.
  inversion ND as [|? ? Hj ND']; subst. rewrite IH by assumption.
  destruct (String.eqb i j) eqn:E.
  - apply String.eqb_eq in E. subst j.
    replace (oget i l) with (@None StoreItem)
      by (symmetry; now apply oget_None_notin).
    destruct (String.eqb (kind st) k); simpl; auto. apply oget_oset_eq.
  - apply String.eqb_neq in E.
    assert (Ea : oget i (if negb (String.eqb (kind st) k)
                         then oset j st acc else acc) = oget i acc).
    { destruct (String.eqb (kind st) k); simpl; auto.
      apply oget_oset_neq. congruence. }
    simpl in Ea. rewrite Ea. reflexivity.
Qed.


(** What [removeStoryKind] does to a known group of a well-formed store:
    the group keeps its order and loses its parameters and decorators, the
    records of the group are deleted, and [clean()] is called on the hooks
    of those stories of the group that [raw()] lists. *)
Lemma removeStoryKind_known k u s km :
  well_formed s -> (_configuring s || u) = true ->
  oget k (_kinds s) = Some km ->
  outcome (removeStoryKind k u) s = Normal tt
  /\ oget k (_kinds (after (removeStoryKind k u) s))
     = Some {| order := order km; kind_parameters := []; kind_decorators := [] |}
  /\ _stories (after (removeStoryKind k u) s) = withoutKind k (_stories s) []
  /\ hooksCleaned (after (removeStoryKind k u) s)
     = hooksCleaned s
       ++ map hooks
            (filter (fun st => String.eqb (kind st) k)
               (filter (fun st => includeStory st None) (ovalues (_stories s)))).
Proof.
  intros W G H.
  set (s2 := set_kinds
               (oset k {| order := order km; kind_parameters := [];
                          kind_decorators := [] |}
                  (oset k {| order := order km; kind_parameters := [];
                             kind_decorators := kind_decorators km |}
                     (_kinds s))) s).
  assert (W2 : well_formed s2).
  { destruct W as [ND W]. split; [exact ND|]. intros i st Hin.
    destruct (W i st Hin) as [Ei [km' Hk]]. split; auto. simpl.
    destruct (String.eqb k (kind st)) eqn:E.
    - apply String.eqb_eq in E. rewrite <- E, oget_oset_eq. eauto.
    - apply String.eqb_neq in E. rewrite !oget_oset_neq by auto. eauto. }
  assert (C : cleanHooksForKind k s2 =
              (Normal tt,
               set_hooksCleaned
                 (hooksCleaned s
                  ++ map hooks
                       (filter (fun st => String.eqb (kind st) k)
                          (filter (fun st => includeStory st None)
                             (ovalues (_stories s))))) s2)).
  { unfold cleanHooksForKind, bind, this, lift, getStoriesForKind.
    rewrite (raw_well_formed s2 None W2), filterKind_published. simpl.
    rewrite forEach_cleanHooks.
    - now rewrite map_map.
    - apply Forall_forall. intros p Hp. apply in_map_iff in Hp.
      destruct Hp as (st & <- & Hst). simpl.
      apply filter_In in Hst. destruct Hst as [Hst _].
      apply filter_In in Hst. destruct Hst as [Hst _].
      unfold ovalues in Hst. apply in_map_iff in Hst.
      destruct Hst as ([i st'] & <- & Hin). simpl.
      destruct W as [ND W]. destruct (W i st' Hin) as [Ei _].
      rewrite Ei. now apply In_oget. }
  set (s1 := set_kinds
               (oset k {| order := order km; kind_parameters := [];
                          kind_decorators := kind_decorators km |}
                  (_kinds s)) s).
  unfold after, outcome, removeStoryKind.
  rewrite (bind_normal _ _ s tt s).
  2:{ unfold_methods.
      replace (negb (_configuring s) && negb u) with false
        by (destruct (_configuring s), u; simpl in *; congruence).
      reflexivity. }
  rewrite (bind_normal this _ s s s) by reflexivity. rewrite H.
  rewrite (bind_normal (updateKind k _) _ s tt s1)
    by (unfold_methods; now rewrite H).
  rewrite (bind_normal (updateKind k _) _ s1 tt s2)
    by (unfold_methods; simpl; now rewrite oget_oset_eq).
  rewrite (bind_normal (cleanHooksForKind k) _ s2 tt _ C).
  unfold update. simpl. rewrite oget_oset_eq. repeat split.
Qed.


Section Histories.

Variable env : Comparators.

Lemma pushToManager_unfold s :
  pushToManager env s =
  match _channel s with
  | None => (Normal tt, s)
  | Some c =>
      match extract env s (Some {| includeDocsOnly := Some true |}) with
      | Normal stories =>
          (Normal tt, set_channel (Some (c ++ [SET_STORIES stories])) s)
      | Throw e => (Throw e, s)
      end
  end.
Proof.
  unfold pushToManager, getStoriesForManager. unfold_methods.
  destruct (_channel s) eqn:E; [|reflexivity].
  destruct (extract env s _); simpl; [rewrite E|]; reflexivity.
Qed.

Lemma finishConfiguring_unfold s :
  finishConfiguring env s =
  match _channel s with
  | None => (Normal tt, set_configuring false s)
  | Some c =>
      match extract env (set_configuring false s)
              (Some {| includeDocsOnly := Some true |}) with
      | Normal stories =>
          (Normal tt,
           set_channel
             (Some (c ++ [SET_STORIES stories] ++ [RENDER_CURRENT_STORY]))
             (set_configuring false s))
      | Throw e => (Throw e, set_configuring false s)
      end
  end.
Proof.
  unfold finishConfiguring. unfold bind at 1. unfold update at 1.
  unfold bind at 1. rewrite pushToManager_unfold. simpl.
  destruct (_channel s) eqn:E.
  - destruct (extract env _ _); simpl; [|reflexivity].
    unfold_methods. simpl. now rewrite <- app_assoc.
  - unfold_methods. simpl. now rewrite E.
Qed.

Lemma run_kinds_grow c s : kinds_grow s (after (run env c) s).
Proof.
  destruct c; simpl;
    try apply addKindMetadata_kinds_grow;
    try apply addStory_kinds_grow;
    try apply removeStoryKind_kinds_grow;
    try apply ensureKind_kinds_grow;
    try (apply kinds_grow_same; apply cleanHooksForKind_same_registry);
    try (apply kinds_grow_same; unfold after;
         first [rewrite finishConfiguring_unfold
               | rewrite pushToManager_unfold];
         split_matches; reflexivity);
    try (apply kinds_grow_same; unfold_methods; split_matches; reflexivity).
Qed.




Lemma run_stories_step c s : stories_step s (after (run env c) s).
Proof.
  destruct c; simpl;
    try apply addStory_stories_step;
    try apply remove_stories_step;
    try apply removeStoryKind_stories_step;
    try apply setStoryArgs_stories_step;
    try (apply stories_step_same; apply cleanHooksForKind_same_registry);
    try (apply stories_step_same; unfold after;
         first [rewrite finishConfiguring_unfold
               | rewrite pushToManager_unfold];
         split_matches; reflexivity);
    try (apply stories_step_same; unfold_methods; split_matches; reflexivity).
Qed.

Lemma reachable_well_formed s : reachable env s -> well_formed s.
Proof.
  induction 1 as [channel|s c _ IH].
  - split; simpl; [constructor|tauto].
  - eapply well_formed_step; eauto using run_kinds_grow, run_stories_step.
Qed.

Lemma reachable_history cs s : reachable env s -> reachable env (history env cs s).
Proof.
  revert s. induction cs as [|c cs IH]; intros s H; simpl; auto.
  apply IH. now constructor.
Qed.

(** *** [extract] on a well-formed store *)

Lemma sortFn_total p a b : sortFn env p a b <> None.
Proof. destruct p; simpl; discriminate. Qed.

Lemma byKindOrder_key s a b :
  (exists km, oget (kind (snd a)) (_kinds s) = Some km) ->
  (exists km, oget (kind (snd b)) (_kinds s) = Some km) ->
  byKindOrder s a b = Some (kindOrder s a - kindOrder s b).
Proof.
  intros [ka Ha] [kb Hb]. unfold byKindOrder, kindOrder. now rewrite Ha, Hb.
Qed.

Lemma byKindOrder_total s a b :
  (exists km, oget (kind (snd a)) (_kinds s) = Some km) ->
  (exists km, oget (kind (snd b)) (_kinds s) = Some km) ->
  byKindOrder s a b <> None.
Proof. intros Ha Hb. now rewrite byKindOrder_key. Qed.

Lemma well_formed_kinds_known s :
  well_formed s ->
  Forall (fun e : entry => exists km, oget (kind (snd e)) (_kinds s) = Some km)
    (_stories s).
Proof.
  intros [_ W]. apply Forall_forall. intros [i st] H. simpl.
  now destruct (W i st H).
Qed.

Lemma sortedStories_spec s :
  well_formed s ->
  exists sorted,
    sortedStories env s = Some sorted
    /\ Permutation (_stories s) sorted
    /\ match storySortParameter s with
       | Some p => Stable.inplace (sortFn env p) (oentries (_stories s)) = Some sorted
       | None => stable_sort_of (kindOrder s) (oentries (_stories s)) sorted
       end.
Proof.
  intros W. unfold sortedStories, oentries.
  destruct (0 <? List.length (ovalues (_stories s)))%nat eqn:E.
  - destruct (storySortParameter s) as [p|].
    + destruct (inplace_total (sortFn env p) (fun _ => True)
                  (fun a b _ _ => sortFn_total p a b) (_stories s))
        as (l' & El & Hp).
      { apply Forall_forall. auto. }
      exists l'. auto.
    + pose proof (well_formed_kinds_known s W) as K.
      destruct (inplace_keyed (byKindOrder s) _ (kindOrder s)
                  (byKindOrder_key s) (_stories s) K) as (l' & El & Hs).
      destruct (inplace_total (byKindOrder s) _ (byKindOrder_total s)
                  (_stories s) K) as (l'' & El' & Hp).
      rewrite El in El'. injection El' as <-. exists l'. auto.
  - apply Nat.ltb_ge in E. unfold ovalues in E. rewrite length_map in E.
    destruct (_stories s) as [|e l] eqn:Es; [|simpl in E; lia].
    exists []. unfold storySortParameter. rewrite Es. simpl.
    repeat split; auto. constructor.
Qed.

Lemma extract_spec s o :
  well_formed s ->
  exists sorted,
    sortedStories env s = Some sorted
    /\ Permutation (_stories s) sorted
    /\ extract env s o =
       Normal (fold_left (assign_included (fun st => includeStory st o)) sorted []).
Proof.
  intros W. destruct (sortedStories_spec s W) as (sorted & E & Hp & _).
  exists sorted. repeat split; auto. unfold extract. now rewrite E.
Qed.

(** *** Documentation-only stories (claim C9) *)

Lemma includeStory_rule st o :
  includeStory st o =
  wants_docsOnly o || negb (truthy (prop (parameters st) "docsOnly")).
Proof.
  unfold includeStory, wants_docsOnly, default_StoryOptions, isStoryDocsOnly.
  destruct o as [[[[|]|]]|]; reflexivity.
Qed.

Lemma raw_spec s o r :
  well_formed s ->
  In r (raw s o) <->
  exists i st, oget i (_stories s) = Some st /\ includeStory st o = true
    /\ r = Some {| pub_item := st; pub_globalArgs := _globalArgs s |}.
Proof.
  intros [ND W]. unfold raw. rewrite in_map_iff. split.
  - intros (st & <- & H). apply filter_In in H. destruct H as [H Hi].
    apply filter_In in H. destruct H as [H _].
    unfold ovalues in H. apply in_map_iff in H.
    destruct H as ([i st'] & <- & Hin). simpl in *.
    destruct (W i st' Hin) as [Eid _].
    exists i, st'. repeat split; auto.
    + now apply In_oget.
    + unfold fromId. rewrite Eid. now rewrite (In_oget i st' _ ND Hin).
  - intros (i & st & G & Hi & ->). exists st.
    pose proof (oget_Some_In _ _ _ G) as Hin.
    destruct (W i st Hin) as [Eid _]. split.
    + unfold fromId. rewrite Eid. now rewrite G.
    + apply filter_In. split; auto. apply filter_In. split; auto.
      unfold ovalues. apply in_map_iff. exists (i, st). auto.
Qed.

Lemma extract_lookup s o :
  well_formed s ->
  exists stories,
    extract env s o = Normal stories
    /\ forall i x,
        oget i stories = Some x <->
        exists st, oget i (_stories s) = Some st /\ includeStory st o = true
                   /\ x = toExtracted st.
Proof.
  intros W. destruct (extract_spec s o W) as (sorted & _ & Hp & E).
  destruct W as [ND W].
  assert (NDs : NoDup (okeys sorted)).
  { eapply Permutation_NoDup; [|exact ND]. unfold okeys.
    now apply Permutation_map. }
  eexists. split; [exact E|]. intros i x.
  rewrite oget_assign_included by assumption.
  destruct (oget i (included (fun st => includeStory st o) sorted))
    as [st|] eqn:G; unfold included in G.
  - apply (oget_filter_In (fun st => includeStory st o)) in G; auto.
    destruct G as [Hin Hi].
    assert (Gs : oget i (_stories s) = Some st).
    { apply In_oget; auto.
      eapply Permutation_in; [apply Permutation_sym; exact Hp|exact Hin]. }
    split.
    + intros [= <-]. eauto.
    + intros (st' & G' & _ & ->). congruence.
  - simpl. split; [discriminate|]. intros (st & G' & Hi & ->). exfalso.
    assert (Hin : In (i, st) sorted).
    { eapply Permutation_in; [exact Hp|]. now apply oget_Some_In. }
    rewrite (proj2 (oget_filter_In (fun st => includeStory st o)
                      sorted i st NDs) (conj Hin Hi)) in G.
    discriminate.
Qed.

(** C9: [extract] leaves out every story whose [parameters.docsOnly] is
    true unless [includeDocsOnly: true] is passed, and [raw] filters by the
    same rule, with the same default. *)
Theorem docsOnly_filtering s o :
  reachable env s ->
  exists stories,
    extract env s o = Normal stories
    /\ (forall i x,
          oget i stories = Some x <->
          exists st, oget i (_stories s) = Some st
                     /\ includeStory st o = true /\ x = toExtracted st)
    /\ (forall r,
          In r (raw s o) <->
          exists i st, oget i (_stories s) = Some st
            /\ includeStory st o = true
            /\ r = Some {| pub_item := st; pub_globalArgs := _globalArgs s |})
    /\ (forall st,
          includeStory st o =
          wants_docsOnly o || negb (truthy (prop (parameters st) "docsOnly")))
    /\ wants_docsOnly None = false.
Proof.
  intros R. apply reachable_well_formed in R.
  destruct (extract_lookup s o R) as (stories & E & H).
  exists stories. split; [exact E|]. split; [exact H|]. split.
  - intros r. now apply raw_spec.
  - split; [|reflexivity]. intros st. apply includeStory_rule.
Qed.

(** *** The order of the extracted stories (claim C2) *)

Lemma storySortParameter_deciding s :
  well_formed s -> storySortParameter s = custom_sort s.
Proof.
  intros [ND _]. unfold storySortParameter, custom_sort, deciding_story.
  unfold has_options.
  rewrite (find_key_entry
             (fun st => truthy (prop (parameters st) "options"))
             (_stories s) ND (_stories s) (incl_refl _)).
  unfold oentries.
  destruct (find _ (_stories s)) as [[i st]|] eqn:F; simpl; auto.
  apply find_some in F. destruct F as [Hin _].
  rewrite (In_oget i st _ ND Hin).
  destruct (truthy_string i); simpl; auto.
Qed.

Lemma extract_as_list s o sorted :
  well_formed s ->
  (forall i, In i (okeys (_stories s)) -> array_index i = None) ->
  Permutation (_stories s) sorted ->
  fold_left (assign_included (fun st => includeStory st o)) sorted [] =
  map (fun p => (fst p, toExtracted (snd p)))
    (filter (fun p => includeStory (snd p) o) sorted).
Proof.
  intros [ND _] Hi Hp.
  assert (Hk : Permutation (okeys (_stories s)) (okeys sorted)).
  { unfold okeys. now apply Permutation_map. }
  rewrite fold_assign_included_append; auto.
  - simpl. eapply Permutation_NoDup; eauto.
  - intros i H. apply Hi.
    eapply Permutation_in; [apply Permutation_sym; exact Hk|exact H].
Qed.

Lemma declared_sort_custom s :
  (forall i, In i (okeys (_stories s)) -> i <> "") ->
  custom_sort s = declared_sort s.
Proof.
  intros Hi. unfold custom_sort, declared_sort.
  destruct (deciding_story s) as [[i st]|] eqn:F; auto.
  unfold deciding_story in F. apply find_some in F. destruct F as [Hin _].
  assert (N : i <> "").
  { apply Hi. unfold okeys. apply in_map_iff. exists (i, st). auto. }
  apply String.eqb_neq in N. unfold truthy_string. now rewrite N.
Qed.

(** C2, as the code has it: the stories are sorted with the custom
    comparator exactly when the first story that has [parameters.options]
    declares [options.storySort]; in every other case, also when a later
    story declares one, they are stable-sorted by the order of their
    groups.  The extracted object lists the included stories in that
    order.  The store holds every story under its id, with its group among
    the groups of the store, and no id is empty or an array index. *)
Theorem extract_sort_policy s o :
  well_formed s ->
  (forall i, In i (okeys (_stories s)) -> i <> "" /\ array_index i = None) ->
  exists sorted,
    extract env s o =
    Normal (map (fun p => (fst p, toExtracted (snd p)))
              (filter (fun p => includeStory (snd p) o) sorted))
    /\ match declared_sort s with
       | Some p =>
           Stable.inplace (sortFn env p) (oentries (_stories s)) = Some sorted
       | None =>
           stable_sort_of (kindOrder s) (oentries (_stories s)) sorted
       end.
Proof.
  intros W Hi.
  destruct (sortedStories_spec s W) as (sorted & E & Hp & Hs).
  exists sorted. split.
  - unfold extract. rewrite E. f_equal. apply (extract_as_list s); auto.
    intros i H. now apply Hi.
  - rewrite <- declared_sort_custom by (intros i H; now apply Hi).
    now rewrite <- storySortParameter_deciding.
Qed.

(** *** The end of the configuring phase (claims C10 and C6) *)

Lemma extract_all s :
  well_formed s ->
  exists stories,
    extract env s (Some {| includeDocsOnly := Some true |}) = Normal stories
    /\ forall i st, oget i (_stories s) = Some st ->
         oget i stories = Some (toExtracted st).
Proof.
  intros W.
  destruct (extract_lookup s (Some {| includeDocsOnly := Some true |}) W)
    as (stories & E & H).
  exists stories. split; auto. intros i st G. apply H. exists st. auto.
Qed.

Lemma finishConfiguring_spec s :
  well_formed s ->
  exists stories,
    extract env s (Some {| includeDocsOnly := Some true |}) = Normal stories
    /\ (forall i st, oget i (_stories s) = Some st ->
          oget i stories = Some (toExtracted st))
    /\ finishConfiguring env s =
       (Normal tt,
        match _channel s with
        | Some c =>
            set_channel
              (Some (c ++ [SET_STORIES stories; RENDER_CURRENT_STORY]))
              (set_configuring false s)
        | None => set_configuring false s
        end).
Proof.
  intros W. destruct (extract_all s W) as (stories & E & H).
  exists stories. repeat split; auto.
  rewrite finishConfiguring_unfold.
  change (extract env (set_configuring false s)) with (extract env s).
  rewrite E. now destruct (_channel s).
Qed.

(** C10, as the code has it: [finishConfiguring] always clears the
    configuring flag; when the store has a channel it then emits the
    snapshot of all the stories, documentation-only ones included, and
    after it the render event, whether a selection was set or not; when
    the store has no channel it emits nothing. *)
Theorem finishConfiguring_emits s :
  reachable env s ->
  exists stories,
    extract env s (Some {| includeDocsOnly := Some true |}) = Normal stories
    /\ (forall i st, oget i (_stories s) = Some st ->
          oget i stories = Some (toExtracted st))
    /\ finishConfiguring env s =
       (Normal tt,
        match _channel s with
        | Some c =>
            set_channel
              (Some (c ++ [SET_STORIES stories; RENDER_CURRENT_STORY]))
              (set_configuring false s)
        | None => set_configuring false s
        end).
Proof.
  intros R. apply finishConfiguring_spec. now apply reachable_well_formed.
Qed.

Lemma setSelection_unfold sel s :
  setSelection sel s =
  (Normal tt,
   match _channel s with
   | Some c =>
       set_channel
         (Some (c ++ CURRENT_STORY_WAS_SET sel
                  :: (if _configuring s then [] else [RENDER_CURRENT_STORY])))
         (set_selection (Some sel) s)
   | None => set_selection (Some sel) s
   end).
Proof.
  unfold_methods. simpl. destruct (_channel s) eqn:E; simpl; auto.
  destruct (_configuring s); simpl; rewrite ?E; simpl;
    rewrite <- ?app_assoc; reflexivity.
Qed.

(** C6, as the code has it: [setSelection] always overwrites the
    selection; when the store has a channel it emits the
    selection-was-set event, followed at once by the render event if the
    store is not configuring; a selection set while configuring and then
    [finishConfiguring] emit, together, one selection-was-set event and
    one render event.  Without a channel nothing is emitted. *)
Theorem setSelection_emits s sel :
  reachable env s ->
  setSelection sel s =
    (Normal tt,
     match _channel s with
     | Some c =>
         set_channel
           (Some (c ++ CURRENT_STORY_WAS_SET sel
                    :: (if _configuring s then [] else [RENDER_CURRENT_STORY])))
           (set_selection (Some sel) s)
     | None => set_selection (Some sel) s
     end)
  /\ (forall c, _channel s = Some c -> _configuring s = true ->
      exists emitted,
        _channel (history env [SetSelection sel; FinishConfiguring] s)
          = Some (c ++ emitted)
        /\ List.length (filter is_render emitted) = 1%nat
        /\ List.length (filter is_selection_set emitted) = 1%nat
        /\ exists stories,
             emitted = [CURRENT_STORY_WAS_SET sel; SET_STORIES stories;
                        RENDER_CURRENT_STORY]).
Proof.
  intros R. split; [apply setSelection_unfold|].
  intros c Hc Hconf.
  assert (R' : reachable env (after (run env (SetSelection sel)) s))
    by now constructor.
  destruct (finishConfiguring_spec _ (reachable_well_formed _ R'))
    as (stories & _ & _ & E).
  exists [CURRENT_STORY_WAS_SET sel; SET_STORIES stories; RENDER_CURRENT_STORY].
  repeat split; eauto.
  simpl in E |- *. unfold after at 1. rewrite E. simpl.
  unfold after. rewrite setSelection_unfold, Hc, Hconf. simpl.
  now rewrite <- app_assoc.
Qed.

(** *** Resolved parameters (claim C1) *)

Lemma merged_cons base p ps :
  merged base (p :: ps) = merged (combineParameters [base; p]) ps.
Proof. reflexivity. Qed.




End Histories.

(** ** The guards *)

(** C8, as the code has it: [addParameterEnhancer] throws exactly when the
    store holds at least one story at the time of the call; on a store
    whose stories have all been removed it succeeds again. *)
Theorem addParameterEnhancer_guard e s :
  addParameterEnhancer e s =
  match _stories s with
  | [] =>
      (Normal tt, set_parameterEnhancers (_parameterEnhancers s ++ [e]) s)
  | _ :: _ =>
      (Throw (Error
         "Cannot add a parameter enhancer to the store after a story has been added."),
       s)
  end.
Proof. unfold_methods. now destruct (_stories s). Qed.

Lemma guard_rejects s u what :
  _configuring s = false -> u = false ->
  whenConfiguring u what s = (Throw (Error (not_configuring_message what)), s).
Proof. intros H ->. unfold_methods. now rewrite H. Qed.



(** * Concrete runs *)

(** C3: a documentation-only story of the removed group loses its record
    without [clean()] being called on its hooks, because [cleanHooksForKind]
    goes through [raw()], which leaves such stories out; [remove] cleans the
    hooks of the same story. *)
Theorem removeStoryKind_skips_docsOnly_hooks :
  let s :=
    history by_descending_id
      [AddStory (example_story "a--1" "a" [("docsOnly", VBool true)]) safe;
       AddStory (example_story "a--2" "a" []) safe]
      (newStoryStore None) in
  let s' := after (removeStoryKind "a" false) s in
  map (fun p => (fst p, hooks (snd p))) (_stories s)
    = [("a--1", 0%nat); ("a--2", 1%nat)]
  /\ outcome (removeStoryKind "a" false) s = Normal tt
  /\ _stories s' = []
  /\ hooksCleaned s' = [1%nat]
  /\ hooksCleaned (after (remove "a--1" false) s) = [0%nat].
Proof. vm_compute. repeat split. Qed.

(** Against C2 as stated: the second story declares [options.storySort],
    yet [extract] keeps the order of the groups, because the first story
    that has [parameters.options] declares none; the declared comparator
    would have put ["b--1"] first. *)
Lemma extract_ignores_later_storySort :
  let s :=
    history by_descending_id
      [AddStory (example_story "a--1" "a"
                   [("options", VObj [("showPanel", VBool true)])]) safe;
       AddStory (example_story "b--1" "b"
                   [("options", VObj [("storySort", VFun 0%nat)])]) safe]
      (newStoryStore None) in
  (exists st, oget "b--1" (_stories s) = Some st
     /\ get (prop (parameters st) "options") "storySort" = VFun 0%nat)
  /\ match extract by_descending_id s None with
     | Normal stories => okeys stories
     | Throw _ => []
     end = ["a--1"; "b--1"]
  /\ option_map okeys
       (Stable.inplace (sortFn by_descending_id (VFun 0%nat)) (_stories s))
     = Some ["b--1"; "a--1"].
Proof.
  vm_compute. split; [|split; reflexivity].
  eexists. split; reflexivity.
Qed.



(** Against C6 as stated: on a store built without a channel,
    [setSelection] sets the selection and emits nothing, and neither does the
    [finishConfiguring] that follows. *)
Lemma setSelection_without_channel :
  let s := newStoryStore None in
  outcome (setSelection example_selection) s = Normal tt
  /\ _selection (after (setSelection example_selection) s)
     = Some example_selection
  /\ _channel (after (setSelection example_selection) s) = None
  /\ _channel (history by_descending_id
                 [SetSelection example_selection; FinishConfiguring] s) = None.
Proof. vm_compute. repeat split. Qed.

(** Against C10 as stated: on a store built without a channel,
    [finishConfiguring] clears the flag and emits nothing. *)
Lemma finishConfiguring_without_channel :
  let s := newStoryStore None in
  outcome (finishConfiguring by_descending_id) s = Normal tt
  /\ _configuring (after (finishConfiguring by_descending_id) s) = false
  /\ _channel (after (finishConfiguring by_descending_id) s) = None.
Proof. vm_compute. repeat split. Qed.

(** Against C8 as stated: a story has been registered and removed again,
    and [addParameterEnhancer] succeeds. *)
Lemma enhancer_accepted_after_stories_removed :
  let s1 :=
    history by_descending_id
      [AddStory (example_story "a--1" "a" []) safe] (newStoryStore None) in
  let s2 := after (remove "a--1" false) s1 in
  okeys (_stories s1) = ["a--1"]
  /\ outcome (addParameterEnhancer example_enhancer) s1
     = Throw (Error
         "Cannot add a parameter enhancer to the store after a story has been added.")
  /\ outcome (addParameterEnhancer example_enhancer) s2 = Normal tt
  /\ List.length
       (_parameterEnhancers (after (addParameterEnhancer example_enhancer) s2))
     = 1%nat.
Proof. vm_compute. repeat split. Qed.

(** ** The theorems at concrete stores *)

Lemma configured_store_reachable : reachable by_descending_id configured_store.
Proof. apply reachable_history. constructor. Qed.


(** C2 on [configured_store], where no story has [parameters.options], and
    on [sorted_store], where the first story declares a sort function that
    puts the ids in descending order. *)
Lemma extract_sort_policy_witness :
  (exists sorted,
     extract by_descending_id configured_store None =
     Normal (map (fun p => (fst p, toExtracted (snd p)))
               (filter (fun p => includeStory (snd p) None) sorted))
     /\ stable_sort_of (kindOrder configured_store)
          (oentries (_stories configured_store)) sorted)
  /\ (exists sorted,
        extract by_descending_id sorted_store None =
        Normal (map (fun p => (fst p, toExtracted (snd p)))
                  (filter (fun p => includeStory (snd p) None) sorted))
        /\ Stable.inplace (sortFn by_descending_id (VFun 0%nat))
             (oentries (_stories sorted_store)) = Some sorted
        /\ okeys sorted = ["b--1"; "a--2"; "a--1"]).
Proof.
  split.
  - destruct (extract_sort_policy by_descending_id configured_store None)
      as (sorted & E & H).
    + apply reachable_well_formed with (env := by_descending_id).
      exact configured_store_reachable.
    + intros i Hi. vm_compute in Hi.
      destruct Hi as [<-|[<-|[<-|[]]]]; split; (discriminate || reflexivity).
    + exists sorted. split; [exact E|exact H].
  - destruct (extract_sort_policy by_descending_id sorted_store None)
      as (sorted & E & H).
    + apply reachable_well_formed with (env := by_descending_id).
      apply reachable_history. constructor.
    + intros i Hi. vm_compute in Hi.
      destruct Hi as [<-|[<-|[<-|[]]]]; split; (discriminate || reflexivity).
    + exists sorted. split; [exact E|].
      assert (D : declared_sort sorted_store = Some (VFun 0%nat))
        by reflexivity.
      rewrite D in H. split; [exact H|].
      vm_compute in H. injection H as <-. reflexivity.
Defined.

(** C9 on [configured_store]: the documentation-only story ["a--1"] is not
    extracted by default. *)
Lemma docsOnly_filtering_witness :
  exists stories,
    extract by_descending_id configured_store None = Normal stories
    /\ oget "a--1" stories = None.
Proof.
  destruct (docsOnly_filtering by_descending_id configured_store None
              configured_store_reachable) as (stories & E & H & _).
  exists stories. split; [exact E|].
  destruct (oget "a--1" stories) as [x|] eqn:G; [|reflexivity].
  apply H in G. destruct G as (st & G & Hi & _).
  vm_compute in G. injection G as <-. discriminate Hi.
Defined.

(** C10 on [configured_store] *)
Lemma finishConfiguring_emits_witness :
  exists stories,
    _channel (after (finishConfiguring by_descending_id) configured_store)
    = option_map (fun c => c ++ [SET_STORIES stories; RENDER_CURRENT_STORY])
        (_channel configured_store).
Proof.
  destruct (finishConfiguring_emits by_descending_id configured_store
              configured_store_reachable) as (stories & _ & _ & E).
  exists stories. unfold after. rewrite E. reflexivity.
Defined.

(** C6 on a configuring store with a channel *)
Lemma setSelection_emits_witness :
  let s :=
    history by_descending_id
      [AddStory (example_story "a--1" "a" []) safe] (newStoryStore (Some [])) in
  exists emitted,
    _channel (history by_descending_id
                [SetSelection example_selection; FinishConfiguring] s)
    = Some emitted
    /\ List.length (filter is_render emitted) = 1%nat
    /\ List.length (filter is_selection_set emitted) = 1%nat.
Proof.
  intros s.
  assert (R : reachable by_descending_id s)
    by (apply reachable_history; constructor).
  destruct (proj2 (setSelection_emits by_descending_id s example_selection R)
              [] eq_refl eq_refl) as (emitted & E & Hr & Hs & _).
  exists emitted. repeat split; assumption.
Defined.




(** * Further properties of the store *)

(** ** What a method leaves untouched *)

Lemma keeps_bind {X A B} (proj : StoryStore -> X) (m : M A) (f : A -> M B) :
  keeps proj m -> (forall a, keeps proj (f a)) -> keeps proj (bind m f).
Proof.
  intros Hm Hf s. rewrite bind_after. destruct (outcome m s).
  - now rewrite Hf, Hm.
  - apply Hm.
Qed.

Lemma keeps_ret {X A} (proj : StoryStore -> X) (a : A) : keeps proj (ret a).
Proof. intros s. reflexivity. Qed.

Lemma keeps_throw {X A} (proj : StoryStore -> X) e : keeps proj (@throw A e).
Proof. intros s. reflexivity. Qed.

Lemma keeps_this {X} (proj : StoryStore -> X) : keeps proj this.
Proof. intros s. reflexivity. Qed.

Lemma keeps_lift {X A} (proj : StoryStore -> X) (c : completion A) :
  keeps proj (lift c).
Proof. intros s. now destruct c. Qed.

Lemma keeps_update {X} (proj : StoryStore -> X) f :
  (forall s, proj (f s) = proj s) -> keeps proj (update f).
Proof. intros H s. apply H. Qed.

Lemma keeps_forEach {X A} (proj : StoryStore -> X) (l : list A) f :
  (forall x, keeps proj (f x)) -> keeps proj (forEach l f).
Proof.
  intros H. induction l as [|x l IH]; simpl.
  - apply keeps_ret.
  - apply keeps_bind; auto.
Qed.

Ltac keeps_step :=
  first
    [ apply keeps_ret | apply keeps_throw | apply keeps_this | apply keeps_lift
    | apply keeps_update; intros ?; reflexivity
    | apply keeps_forEach; intros ?
    | apply keeps_bind; [|intros ?]
    | match goal with
      | |- keeps _ (match ?x with _ => _ end) => destruct x
      | |- keeps _ (if ?b then _ else _) => destruct b
      end ].

Ltac keeps_tac :=
  unfold startConfiguring, addGlobalMetadata, clearGlobalDecorators,
    addKindMetadata, addParameterEnhancer, addStory, remove,
    removeStoryKind, cleanHooksForKind, cleanHooks, setGlobalArgs,
    setStoryArgs, clearError, setError, setSelection, incrementRevision,
    ensureKind, updateKind, whenConfiguring, hooks_clean, emit, ifChannel,
    finishConfiguring, pushToManager;
  cbv zeta; repeat keeps_step.

(** ** The revision counter *)

Section Revision.
Variable env : Comparators.

Lemma run_keeps_revision c :
  c <> IncrementRevision -> keeps _revision (run env c).
Proof. intros N. destruct c; try congruence; simpl; keeps_tac. Qed.

(** X1: the revision counts the [incrementRevision] calls, up to [2^53],
    where the double stays: no other method changes it, whether it
    completes or throws. *)
Theorem revision_counts_increments cs s :
  0 <= _revision s <= max_revision ->
  _revision (history env cs s)
  = Z.min max_revision (_revision s + increments cs).
Proof.
  revert s. induction cs as [|c cs IH]; intros s H.
  - unfold increments. simpl. lia.
  - change (history env (c :: cs) s) with (history env cs (after (run env c) s)).
    assert (N : 0 <= increments cs) by (unfold increments; lia).
    assert (E : increments (c :: cs)
                = increments cs
                  + match c with IncrementRevision => 1 | _ => 0 end).
    { unfold increments. destruct c; simpl filter; simpl List.length; lia. }
    rewrite E. clear E.
    destruct c;
      try (rewrite IH; rewrite run_keeps_revision by discriminate;
           [f_equal; lia|exact H]).
    simpl. unfold after, incrementRevision, update. simpl.
    destruct (Z.ltb_spec (_revision s) max_revision).
    + rewrite IH by (simpl; lia). simpl. lia.
    + rewrite IH by (simpl; lia). simpl. lia.
Qed.

End Revision.

Lemma revision_counts_increments_witness :
  _revision (history by_descending_id
               [IncrementRevision; StartConfiguring; IncrementRevision]
               (newStoryStore None)) = 2.
Proof.
  rewrite revision_counts_increments; [reflexivity|].
  simpl. unfold max_revision. lia.
Defined.

(** ** Removing one story *)








(** ** Arguments *)

Lemma NoDup_Object_assign {A} (target src : obj A) :
  NoDup (okeys target) -> NoDup (okeys (Object_assign target src)).
Proof.
  unfold Object_assign. revert target.
  induction src as [|[k v] src IH]; intros target ND; simpl; auto.
  apply IH. now apply NoDup_oset.
Qed.

Lemma NoDup_spread2 {A} (a b : obj A) : NoDup (okeys (spread2 a b)).
Proof.
  unfold spread2. apply NoDup_Object_assign, NoDup_Object_assign. constructor.
Qed.

Lemma setGlobalArgs_unfold a s :
  setGlobalArgs a s =
  match _channel s with
  | Some c =>
      (Normal tt,
       set_channel
         (Some (c ++ [GLOBAL_ARGS_CHANGED (spread2 (_globalArgs s) a)]))
         (set_globalArgs (spread2 (_globalArgs s) a) s))
  | None => (Throw TypeError, set_globalArgs (spread2 (_globalArgs s) a) s)
  end.
Proof. unfold_methods. simpl. now destruct (_channel s). Qed.

(** ** [addStory], step by step *)

Lemma addStory_unfold a o s :
  (_configuring s || allowUnsafe o) = true ->
  addStory a o s =
  match defaultArgs (resolvedParameters s a) with
  | Normal d =>
      (Normal tt,
       set_stories (oset (a_id a) (newStoreItem s a o d) (_stories s))
         (addStory_prepared s a))
  | Throw e => (Throw e, addStory_prepared s a)
  end.
Proof.
  intros G.
  unfold newStoreItem, addStory_prepared, resolvedParameters, kindParameters,
    kindDecorators, storyParametersOf, storyDecoratorsOf.
  unfold addStory. unfold_methods.
  replace (negb (_configuring s) && negb (allowUnsafe o)) with false
    by (destruct (_configuring s), (allowUnsafe o); simpl in *; congruence).
  simpl.
  destruct (ohas (a_id a) (_stories s)); simpl;
    destruct (oget (a_kind a) (_kinds s)) eqn:E; simpl;
    rewrite ?E, ?oget_oset_eq; simpl;
    match goal with |- context [defaultArgs ?p] => destruct (defaultArgs p) end;
    reflexivity.
Qed.

Lemma addStory_rejected a o s :
  (_configuring s || allowUnsafe o) = false ->
  addStory a o s = (Throw (Error (not_configuring_message "add a story")), s).
Proof.
  intros G. unfold addStory, bind at 1.
  rewrite (guard_rejects s (allowUnsafe o) "add a story");
    destruct (_configuring s), (allowUnsafe o); simpl in *; congruence.
Qed.

Lemma addStory_prepared_stories s a :
  _stories (addStory_prepared s a) = _stories s.
Proof.
  unfold addStory_prepared. unfold_methods.
  destruct (ohas (a_id a) (_stories s)); simpl;
    destruct (oget (a_kind a) (_kinds s)); reflexivity.
Qed.

Lemma addStory_prepared_hooksCreated s a :
  hooksCreated (addStory_prepared s a) = S (hooksCreated s).
Proof. reflexivity. Qed.

#[local] Arguments addStory_prepared : simpl never.
#[local] Arguments newStoreItem : simpl never.

(** ** Where the records of a store come from *)

Lemma remove_stories i u s :
  _stories (after (remove i u) s) = _stories s
  \/ _stories (after (remove i u) s) = odelete i (_stories s).
Proof.
  unfold_methods. destruct (negb (_configuring s) && negb u); simpl; auto.
  destruct (oget i (_stories s)); simpl; auto.
Qed.

Section Origins.
Variable env : Comparators.

Lemma run_keeps_stories c :
  assigns_stories c = false -> keeps _stories (run env c).
Proof. destruct c; try discriminate; intros _; simpl; keeps_tac. Qed.

Lemma run_keeps_hooksCreated c :
  (forall a o, c <> AddStory a o) -> keeps hooksCreated (run env c).
Proof.
  intros N. destruct c; simpl; try keeps_tac. exfalso. eapply N. reflexivity.
Qed.

Lemma run_keeps_globalArgs c :
  (forall a, c <> SetGlobalArgs a) -> keeps _globalArgs (run env c).
Proof.
  intros N. destruct c; simpl; try keeps_tac. exfalso. eapply N. reflexivity.
Qed.

Lemma run_story_origin c s i st :
  In (i, st) (_stories (after (run env c) s)) ->
  story_origin c s (after (run env c) s) i st.
Proof.
  intros H. destruct (assigns_stories c) eqn:A.
  2:{ left. now rewrite run_keeps_stories in H. }
  destruct c; try discriminate; simpl in H |- *.
  - (* addStory *)
    destruct (_configuring s || allowUnsafe o) eqn:G.
    + unfold after in *. rewrite addStory_unfold in * by assumption.
      destruct (defaultArgs (resolvedParameters s a)) as [d|e].
      * change (In (i, st)
                  (oset (a_id a) (newStoreItem s a o d) (_stories s))) in H.
        apply In_oset in H. destruct H as [H|H]; [|now left].
        injection H as -> ->. right. right. exists a, o, d. auto.
      * change (In (i, st) (_stories (addStory_prepared s a))) in H.
        rewrite addStory_prepared_stories in H. now left.
    + unfold after in H. rewrite addStory_rejected in H by assumption.
      now left.
  - (* remove *)
    left. destruct (remove_stories i0 allowUnsafe0 s) as [E|E];
      rewrite E in H; auto. now apply In_odelete in H.
  - (* removeStoryKind *)
    left. destruct (removeStoryKind_stories k allowUnsafe0 s) as [E|E];
      rewrite E in H; auto.
    apply In_withoutKind in H. destruct H as [[]|[H _]]. exact H.
  - (* setStoryArgs *)
    revert H. unfold_methods.
    destruct (oget i0 (_stories s)) as [st0|] eqn:E; simpl; [|now left].
    intros H.
    assert (H' : In (i, st)
                   (oset i0 (withArgs st0 (spread2 (args st0) newArgs))
                      (_stories s))).
    { destruct (_channel s); exact H. }
    apply In_oset in H'. destruct H' as [H'|H']; [|now left].
    injection H' as -> ->. right. left. exists st0, newArgs.
    repeat split. now apply oget_Some_In.
Qed.

Lemma run_hooksCreated_le c s :
  (hooksCreated s <= hooksCreated (after (run env c) s))%nat.
Proof.
  destruct c;
    try (rewrite run_keeps_hooksCreated by discriminate; lia).
  simpl. destruct (_configuring s || allowUnsafe o) eqn:G.
  - unfold after. rewrite addStory_unfold by assumption.
    destruct (defaultArgs _); simpl; lia.
  - unfold after. rewrite addStory_rejected by assumption. simpl. lia.
Qed.

Lemma story_origin_hooks c s s' i st :
  hooks_well_formed s -> story_origin c s s' i st ->
  (exists st0, In (i, st0) (_stories s) /\ hooks st = hooks st0)
  \/ (hooks st = hooksCreated s /\ hooksCreated s' = S (hooksCreated s)
      /\ exists a o, c = AddStory a o /\ i = a_id a).
Proof.
  intros _ [H|[(st0 & na & _ & H & ->)|(a & o & d & Ec & -> & -> & E)]].
  - left. eauto.
  - left. eauto.
  - right. repeat split; eauto.
Qed.

Lemma run_hooks_well_formed c s :
  hooks_well_formed s -> hooks_well_formed (after (run env c) s).
Proof.
  intros W. pose proof W as [Hlt Hinj].
  pose proof (run_hooksCreated_le c s) as Hle.
  split.
  - intros i st H. apply run_story_origin in H.
    destruct (story_origin_hooks _ _ _ _ _ W H)
      as [(st0 & H0 & E)|(E & E' & _)].
    + pose proof (Hlt i st0 H0). lia.
    + lia.
  - intros i st j st' H1 H2 E.
    apply run_story_origin in H1. apply run_story_origin in H2.
    destruct (story_origin_hooks _ _ _ _ _ W H1)
      as [(st0 & H0 & E0)|(E0 & _ & a & o & Ec & Ei)];
      destruct (story_origin_hooks _ _ _ _ _ W H2)
        as [(st1 & H1' & E1)|(E1 & _ & a' & o' & Ec' & Ej)].
    + eapply Hinj; eauto. congruence.
    + pose proof (Hlt i st0 H0). lia.
    + pose proof (Hlt j st1 H1'). lia.
    + congruence.
Qed.

Lemma run_args_well_formed c s :
  args_well_formed s -> args_well_formed (after (run env c) s).
Proof.
  intros [Hg Hs]. split.
  - destruct c; try (rewrite run_keeps_globalArgs by discriminate; exact Hg).
    simpl. unfold after. rewrite setGlobalArgs_unfold.
    destruct (_channel s); simpl; apply NoDup_spread2.
  - intros i st H. apply run_story_origin in H.
    destruct H as [H|[(st0 & na & _ & H & ->)|(a & o & d & _ & _ & -> & _)]].
    + eapply Hs; eauto.
    + simpl. apply NoDup_spread2.
    + unfold newStoreItem. simpl.
      apply NoDup_Object_assign, NoDup_Object_assign. constructor.
Qed.

End Origins.

(** ** The groups of a store *)

Lemma length_oset {A} k (v : A) (o : obj A) :
  List.length (oset k v o)
  = if ohas k o then List.length o else S (List.length o).
Proof.
  unfold oset. destruct (ohas k o).
  - rewrite <- (length_map fst), <- (length_map fst o).
    change (map fst ?x) with (okeys x). now rewrite okeys_oreplace.
  - symmetry. apply (Permutation_length (oinsert_Permutation k v o)).
Qed.

Lemma preserves_bind {X A B} (proj : StoryStore -> X) Q (m : M A) (f : A -> M B) :
  preserves proj Q m -> (forall a, preserves proj Q (f a)) ->
  preserves proj Q (bind m f).
Proof.
  intros Hm Hf s H. rewrite bind_after. destruct (outcome m s).
  - apply Hf, Hm, H.
  - apply Hm, H.
Qed.

Lemma preserves_keeps {X A} (proj : StoryStore -> X) Q (m : M A) :
  keeps proj m -> preserves proj Q m.
Proof. intros K s H. now rewrite K. Qed.

Lemma ensureKind_kinds_wf k : preserves _kinds kinds_wf (ensureKind k).
Proof.
  intros s (ND & Hb & Hi). unfold_methods.
  destruct (oget k (_kinds s)) eqn:E; simpl;
    [exact (conj ND (conj Hb Hi))|].
  assert (Hh : ohas k (_kinds s) = false) by (unfold ohas; now rewrite E).
  set (new := {| order := Z.of_nat (List.length (okeys (_kinds s)));
                 kind_parameters := []; kind_decorators := [] |}).
  assert (Hn : order new = Z.of_nat (List.length (_kinds s))).
  { simpl. unfold okeys. now rewrite length_map. }
  split; [now apply NoDup_oset|]. split.
  - intros k' km H. rewrite length_oset, Hh.
    apply In_oset in H. destruct H as [H|H].
    + injection H as -> ->. lia.
    + specialize (Hb _ _ H). lia.
  - intros k1 km1 k2 km2 H1 H2 Eo.
    apply In_oset in H1. apply In_oset in H2.
    destruct H1 as [H1|H1]; destruct H2 as [H2|H2].
    + congruence.
    + injection H1 as -> ->. specialize (Hb _ _ H2). lia.
    + injection H2 as -> ->. specialize (Hb _ _ H1). lia.
    + eapply Hi; eauto.
Qed.

Lemma updateKind_kinds_wf k f :
  (forall km, order (f km) = order km) ->
  preserves _kinds kinds_wf (updateKind k f).
Proof.
  intros Hf s (ND & Hb & Hi). unfold_methods.
  destruct (oget k (_kinds s)) as [km0|] eqn:E; simpl;
    [|exact (conj ND (conj Hb Hi))].
  assert (Hh : ohas k (_kinds s) = true) by (unfold ohas; now rewrite E).
  pose proof (oget_Some_In _ _ _ E) as H0.
  split; [now apply NoDup_oset|]. split.
  - intros k' km H. rewrite length_oset, Hh.
    apply In_oset in H. destruct H as [H|H].
    + injection H as -> ->. rewrite Hf. eapply Hb; eauto.
    + eapply Hb; eauto.
  - intros k1 km1 k2 km2 H1 H2 Eo.
    apply In_oset in H1. apply In_oset in H2.
    destruct H1 as [H1|H1]; destruct H2 as [H2|H2].
    + congruence.
    + injection H1 as -> ->. rewrite Hf in Eo. eapply Hi; eauto.
    + injection H2 as -> ->. rewrite Hf in Eo. eapply Hi; eauto.
    + eapply Hi; eauto.
Qed.

Ltac preserves_step :=
  first
    [ solve [apply preserves_keeps; keeps_tac]
    | apply ensureKind_kinds_wf
    | apply updateKind_kinds_wf; intros ?; reflexivity
    | apply preserves_bind; [|intros ?]
    | match goal with
      | |- preserves _ _ (match ?x with _ => _ end) => destruct x
      | |- preserves _ _ (if ?b then _ else _) => destruct b
      end ].

Section Kinds.
Variable env : Comparators.

Lemma run_kinds_well_formed c s :
  kinds_well_formed s -> kinds_well_formed (after (run env c) s).
Proof.
  unfold kinds_well_formed. revert s.
  change (preserves _kinds kinds_wf (run env c)).
  destruct c; simpl;
    try (solve [apply preserves_keeps; keeps_tac]);
    unfold addKindMetadata, addStory, removeStoryKind; cbv zeta;
    repeat preserves_step.
Qed.

(** Every store reachable from a new one satisfies the three invariants. *)
Lemma reachable_invariants s :
  reachable env s ->
  hooks_well_formed s /\ args_well_formed s /\ kinds_well_formed s.
Proof.
  induction 1 as [channel|s c _ (Hh & Ha & Hk)].
  - split; [|split].
    + split; simpl; contradiction.
    + split; simpl; [constructor|contradiction].
    + split; simpl; [constructor|split; contradiction].
  - split; [now apply run_hooks_well_formed|].
    split; [now apply run_args_well_formed|now apply run_kinds_well_formed].
Qed.

End Kinds.

(** ** Invariants of reachable stores *)

Section Invariants.
Variable env : Comparators.

(** X4: every registered story has a hooks context of its own: on a
    reachable store two different stories never share one, and every
    context in use was created by the store. *)
Theorem stories_have_their_own_hooks s :
  reachable env s ->
  forall i st, oget i (_stories s) = Some st ->
    (hooks st < hooksCreated s)%nat
    /\ forall j st', oget j (_stories s) = Some st' -> i <> j ->
         hooks st <> hooks st'.
Proof.
  intros R i st H. destruct (reachable_invariants env s R) as ((Hlt & Hinj) & _).
  apply oget_Some_In in H. split; [eapply Hlt; eauto|].
  intros j st' H' N E. apply oget_Some_In in H'. apply N. eapply Hinj; eauto.
Qed.

(** X5: the orders of the groups number them: on a reachable store every
    order is at least 0 and below the number of groups, and two different
    groups never have the same order. *)
Theorem kind_orders_number_the_groups s :
  reachable env s ->
  forall k km, oget k (_kinds s) = Some km ->
    0 <= order km < Z.of_nat (List.length (okeys (_kinds s)))
    /\ forall k' km', oget k' (_kinds s) = Some km' -> k <> k' ->
         order km <> order km'.
Proof.
  intros R k km H.
  destruct (reachable_invariants env s R) as (_ & _ & (_ & Hb & Hi)).
  apply oget_Some_In in H. split.
  - unfold okeys. rewrite length_map. eapply Hb; eauto.
  - intros k' km' H' N E. apply oget_Some_In in H'. apply N. eapply Hi; eauto.
Qed.

Lemma run_keeps_registration c s i st st' :
  well_formed s -> not_addStory i c ->
  oget i (_stories s) = Some st ->
  oget i (_stories (after (run env c) s)) = Some st' ->
  same_registration st st'.
Proof.
  intros [ND _] N H H'. apply oget_Some_In in H'.
  apply run_story_origin in H'.
  destruct H' as [H'|[(st0 & na & _ & H' & ->)|(a & o & d & -> & -> & _)]].
  - rewrite (In_oget _ _ _ ND H') in H. injection H as <-.
    repeat split.
  - rewrite (In_oget _ _ _ ND H') in H. injection H as <-.
    repeat split.
  - simpl in N. congruence.
Qed.

Lemma run_keeps_absent c s i :
  not_addStory i c -> oget i (_stories s) = None ->
  oget i (_stories (after (run env c) s)) = None.
Proof.
  intros N H. destruct (oget i (_stories (after (run env c) s))) as [st|] eqn:E;
    [|reflexivity].
  exfalso. apply oget_Some_In in E. apply run_story_origin in E.
  assert (A : forall st0, ~ In (i, st0) (_stories s)).
  { intros st0 Hin. apply oget_None_notin in H. apply H.
    unfold okeys. apply in_map_iff. exists (i, st0). auto. }
  destruct E as [E|[(st0 & na & _ & E & _)|(a & o & d & -> & -> & _)]].
  - eapply A; eauto.
  - eapply A; eauto.
  - simpl in N. congruence.
Qed.

Lemma history_keeps_absent cs s i :
  Forall (not_addStory i) cs -> oget i (_stories s) = None ->
  oget i (_stories (history env cs s)) = None.
Proof.
  intros F. revert s. induction F as [|c cs Hc _ IH]; intros s H; simpl; auto.
  apply IH. now apply run_keeps_absent.
Qed.

Lemma same_registration_trans st1 st2 st3 :
  same_registration st1 st2 -> same_registration st2 st3 ->
  same_registration st1 st3.
Proof.
  unfold same_registration.
  intros (?&?&?&?&?&?&?&?) (?&?&?&?&?&?&?&?). repeat split; congruence.
Qed.

(** X6: a registration is never recomputed: through any history of calls
    that does not register a story under the same id again, a story that
    is still in the store has the parameters, decorators, hooks and
    identification it was registered with, whatever metadata has been added
    or cleared meanwhile; only its arguments may differ. *)
Theorem registration_is_immutable cs s i st st' :
  reachable env s -> Forall (not_addStory i) cs ->
  oget i (_stories s) = Some st ->
  oget i (_stories (history env cs s)) = Some st' ->
  same_registration st st'.
Proof.
  intros R F. revert s st R.
  induction F as [|c cs Hc F IH]; intros s st R H H'; simpl in H'.
  - rewrite H in H'. injection H' as <-. repeat split.
  - destruct (oget i (_stories (after (run env c) s))) as [st1|] eqn:E.
    + apply (same_registration_trans st st1 st').
      * exact (run_keeps_registration c s i st st1
                 (reachable_well_formed env s R) Hc H E).
      * exact (IH _ st1 (reachable_call env s c R) E H').
    + rewrite (history_keeps_absent cs _ i F E) in H'. discriminate.
Qed.

End Invariants.

Lemma stories_have_their_own_hooks_witness :
  option_map hooks (oget "b--1" (_stories configured_store))
  <> option_map hooks (oget "b--2" (_stories configured_store)).
Proof.
  destruct (oget "b--1" (_stories configured_store)) as [st|] eqn:E1;
    [|discriminate E1].
  destruct (oget "b--2" (_stories configured_store)) as [st'|] eqn:E2;
    [|discriminate E2].
  simpl. intros [= E].
  assert (N : "b--1" <> "b--2") by discriminate.
  exact (proj2 (stories_have_their_own_hooks by_descending_id configured_store
                  configured_store_reachable "b--1" st E1)
           "b--2" st' E2 N E).
Defined.

Lemma kind_orders_number_the_groups_witness :
  0 <= 1 < Z.of_nat (List.length (okeys (_kinds configured_store))).
Proof.
  exact (proj1 (kind_orders_number_the_groups by_descending_id configured_store
                  configured_store_reachable "a"
                  {| order := 1; kind_parameters := []; kind_decorators := [] |}
                  eq_refl)).
Defined.

Lemma registration_is_immutable_witness :
  let cs :=
    [AddGlobalMetadata (example_metadata [("layout", VStr "centered")]);
     ClearGlobalDecorators;
     SetStoryArgs "b--1" [("label", VStr "ok")];
     Remove "a--1" true] in
  option_map parameters
    (oget "b--1" (_stories (history by_descending_id cs configured_store)))
  = option_map parameters (oget "b--1" (_stories configured_store)).
Proof.
  intros cs.
  destruct (oget "b--1" (_stories configured_store)) as [st|] eqn:E1;
    [|discriminate E1].
  destruct (oget "b--1" (_stories (history by_descending_id cs configured_store)))
    as [st'|] eqn:E2; [|discriminate E2].
  assert (F : Forall (not_addStory "b--1") cs) by (repeat constructor).
  pose proof (registration_is_immutable by_descending_id cs configured_store
                "b--1" st st' configured_store_reachable F E1 E2)
    as (_ & _ & _ & _ & _ & _ & _ & Hp).
  simpl. now rewrite Hp.
Defined.

(** ** The arguments of a new story *)











Ltac nodup_strings :=
  cbv; repeat (constructor; [simpl; intuition discriminate|]); constructor.



(** ** Changing arguments *)

Section Arguments.
Variable env : Comparators.

(** X9: [setGlobalArgs] is a shallow merge that does not depend on the
    configuring phase: a key of the new arguments takes the new value, every
    other key keeps its value; the stories are untouched.  With a channel
    the change is emitted with the whole resulting mapping; without one the
    call throws a [TypeError] after the arguments have been changed. *)
Theorem setGlobalArgs_merges newGlobalArgs s :
  reachable env s -> NoDup (okeys newGlobalArgs) ->
  let s' := after (setGlobalArgs newGlobalArgs) s in
  (forall k,
     oget k (_globalArgs s') =
     match oget k newGlobalArgs with
     | Some v => Some v
     | None => oget k (_globalArgs s)
     end)
  /\ _stories s' = _stories s
  /\ match _channel s with
     | Some c =>
         outcome (setGlobalArgs newGlobalArgs) s = Normal tt
         /\ _channel s' = Some (c ++ [GLOBAL_ARGS_CHANGED (_globalArgs s')])
     | None =>
         outcome (setGlobalArgs newGlobalArgs) s = Throw TypeError
         /\ _channel s' = None
     end.
Proof.
  intros R ND s'.
  destruct (reachable_invariants env s R) as (_ & (Ng & _) & _).
  unfold s', after, outcome. rewrite setGlobalArgs_unfold.
  destruct (_channel s) eqn:E; simpl; rewrite ?E;
    (split; [intros k; now apply oget_spread2|]); repeat split.
Qed.


End Arguments.

Lemma setGlobalArgs_merges_witness :
  let s := after (setGlobalArgs [("theme", VStr "dark")]) configured_store in
  let s' := after (setGlobalArgs [("locale", VStr "fr")]) s in
  oget "theme" (_globalArgs s') = Some (VStr "dark")
  /\ oget "locale" (_globalArgs s') = Some (VStr "fr").
Proof.
  intros s s'.
  assert (R : reachable by_descending_id s).
  { exact (reachable_call by_descending_id configured_store
             (SetGlobalArgs [("theme", VStr "dark")]) configured_store_reachable). }
  destruct (setGlobalArgs_merges by_descending_id [("locale", VStr "fr")] s R)
    as (H & _).
  - nodup_strings.
  - split; rewrite H; reflexivity.
Defined.


(** ** The decorators of a new story *)


Section Decorators.
Variable env : Comparators.



End Decorators.


(** ** Registering under an id that is taken *)



Section Duplicates.
Variable env : Comparators.


End Duplicates.


(** ** Removing a group, and registering in it again *)

Lemma updateKind_keeps_other k k' f :
  k <> k' -> keeps (fun s => oget k' (_kinds s)) (updateKind k f).
Proof.
  intros N s. unfold_methods. destruct (oget k (_kinds s)); simpl; auto.
  now apply oget_oset_neq.
Qed.

Lemma removeStoryKind_keeps_other k k' u :
  k <> k' -> keeps (fun s => oget k' (_kinds s)) (removeStoryKind k u).
Proof.
  intros N. unfold removeStoryKind, whenConfiguring, cleanHooksForKind,
    cleanHooks, hooks_clean.
  repeat first [apply updateKind_keeps_other; assumption | keeps_step].
Qed.

Lemma removeStoryKind_keeps_globalMetadata k u :
  keeps _globalMetadata (removeStoryKind k u).
Proof. keeps_tac. Qed.

Lemma removeStoryKind_keeps_enhancers k u :
  keeps _parameterEnhancers (removeStoryKind k u).
Proof. keeps_tac. Qed.

Section RemoveKind.
Variable env : Comparators.

(** X13: within the configuring phase (or with the override)
    [removeStoryKind] on a known group completes normally; the group keeps
    its order and has no parameters and no decorators left; the records of
    the group are gone, every other record and every other group is as it
    was; a story registered in the group afterwards resolves its parameters
    from the global and the story parameters alone. *)
Theorem removeStoryKind_empties_group k u s km :
  reachable env s ->
  (_configuring s || u) = true ->
  oget k (_kinds s) = Some km ->
  let s' := after (removeStoryKind k u) s in
  outcome (removeStoryKind k u) s = Normal tt
  /\ oget k (_kinds s')
     = Some {| order := order km; kind_parameters := []; kind_decorators := [] |}
  /\ (forall k', k' <> k -> oget k' (_kinds s') = oget k' (_kinds s))
  /\ (forall i,
        oget i (_stories s') =
        match oget i (_stories s) with
        | Some st => if String.eqb (kind st) k then None else Some st
        | None => None
        end)
  /\ (forall a, a_kind a = k ->
        resolvedParameters s' a =
        enhance (_parameterEnhancers s) (a_id a) k (a_name a)
          (combineParameters
             [md_parameters (_globalMetadata s); []; storyParametersOf a])).
Proof.
  intros R G H s'. pose proof (reachable_well_formed env s R) as W.
  destruct (removeStoryKind_known k u s km W G H) as (Ho & Hk & Hs & _).
  split; [exact Ho|]. split; [exact Hk|]. split.
  { intros k' N. apply (removeStoryKind_keeps_other k k' u). congruence. }
  split.
  { intros i. unfold s'. rewrite Hs, oget_withoutKind by apply W.
    destruct (oget i (_stories s)) as [st|]; auto. }
  intros a <-. unfold resolvedParameters, kindParameters.
  unfold s'. rewrite Hk, removeStoryKind_keeps_globalMetadata,
    removeStoryKind_keeps_enhancers. reflexivity.
Qed.

End RemoveKind.

Lemma removeStoryKind_empties_group_witness :
  oget "b--1" (_stories (after (removeStoryKind "b" true) configured_store))
  = None
  /\ oget "a--1" (_stories (after (removeStoryKind "b" true) configured_store))
     <> None.
Proof.
  destruct (removeStoryKind_empties_group by_descending_id "b" true
              configured_store
              {| order := 0; kind_parameters := []; kind_decorators := [] |}
              configured_store_reachable eq_refl eq_refl)
    as (_ & _ & _ & Hs & _).
  split; rewrite Hs; [reflexivity|discriminate].
Defined.

(** ** Listings *)

Lemma existsb_eqb_In x l : existsb (String.eqb x) l = true <-> In x l.
Proof.
  rewrite existsb_exists. split.
  - intros (y & H & E). apply String.eqb_eq in E. now subst.
  - intros H. exists x. split; auto. apply String.eqb_refl.
Qed.

Lemma Set_values_spec l : forall seen,
  NoDup (Set_values seen l)
  /\ forall x, In x (Set_values seen l) <-> In x l /\ ~ In x seen.
Proof.
  induction l as [|y l IH]; intros seen; simpl.
  - split; [constructor|]. tauto.
  - destruct (existsb (String.eqb y) seen) eqn:E.
    + apply existsb_eqb_In in E. destruct (IH seen) as [ND I].
      split; auto. intros x. rewrite I. split; [tauto|].
      intros [[->|H] N]; tauto.
    + assert (N : ~ In y seen).
      { intros H. apply existsb_eqb_In in H. congruence. }
      destruct (IH (y :: seen)) as [ND I]. split.
      * constructor; auto. rewrite I. simpl. tauto.
      * intros x. simpl. rewrite I. simpl.
        destruct (string_dec y x) as [->|D]; tauto.
Qed.

Lemma kindsOf_published g (l : list StoreItem) :
  kindsOf (map (fun st => Some {| pub_item := st; pub_globalArgs := g |}) l)
  = Normal (map kind l).
Proof. induction l as [|st l IH]; simpl; auto. now rewrite IH. Qed.

Lemma listedStories_spec s st :
  well_formed s ->
  In st (listedStories s) <->
  oget (id st) (_stories s) = Some st /\ includeStory st None = true.
Proof.
  intros [ND W]. unfold listedStories. rewrite filter_In.
  unfold ovalues. rewrite in_map_iff. split.
  - intros (([i st'] & E & H) & I). simpl in E. subst st'.
    destruct (W i st H) as [Ei _]. split; auto. rewrite Ei.
    now apply In_oget.
  - intros [H I]. split; auto. exists (id st, st). split; auto.
    now apply oget_Some_In.
Qed.

Section Listings.
Variable env : Comparators.

(** X14: on a store reached by calls of its methods [getStoryKinds]
    returns, without repetition, the groups that have a story that is not
    documentation-only: a group whose stories were all removed, or are all
    documentation-only, is not listed. *)
Theorem getStoryKinds_lists_groups s :
  reachable env s ->
  exists ks,
    getStoryKinds s = Normal ks
    /\ NoDup ks
    /\ forall k,
         In k ks <->
         exists st, oget (id st) (_stories s) = Some st
                    /\ includeStory st None = true /\ kind st = k.
Proof.
  intros R. pose proof (reachable_well_formed env s R) as W.
  unfold getStoryKinds. rewrite (raw_well_formed s None W), kindsOf_published.
  destruct (Set_values_spec
              (map kind (filter (fun st => includeStory st None)
                           (ovalues (_stories s)))) []) as [ND I].
  eexists. split; [reflexivity|]. split; [exact ND|].
  intros k. rewrite I, in_map_iff. split.
  - intros ((st & E & H) & _). apply (listedStories_spec s st W) in H.
    exists st. tauto.
  - intros (st & H & Hi & E). split; [|simpl; tauto].
    exists st. split; auto. apply (listedStories_spec s st W). tauto.
Qed.

(** X15: on a store reached by calls of its methods [getRawStory]
    returns a story of the given group and name that is not
    documentation-only, as [fromId] gives it (the record of the store with
    the current global arguments), and [undefined] only when there is no
    such story. *)
Theorem getRawStory_finds s k n :
  reachable env s ->
  exists r,
    getRawStory s k n = Normal r
    /\ match r with
       | Some p =>
           kind (pub_item p) = k /\ name (pub_item p) = n
           /\ includeStory (pub_item p) None = true
           /\ fromId s (id (pub_item p)) = Some p
       | None =>
           forall i st, oget i (_stories s) = Some st ->
             includeStory st None = true -> kind st = k -> name st <> n
       end.
Proof.
  intros R. pose proof (reachable_well_formed env s R) as W.
  unfold getRawStory, getStoriesForKind.
  rewrite (raw_well_formed s None W), filterKind_published.
  eexists. split; [reflexivity|].
  match goal with |- match ?f with _ => _ end => destruct f as [p|] eqn:F end.
  - apply find_some in F. destruct F as [H En].
    apply in_map_iff in H. destruct H as (st & <- & H).
    apply filter_In in H. destruct H as [H Ek].
    apply (listedStories_spec s st W) in H. destruct H as [G I]. simpl in *.
    apply String.eqb_eq in En, Ek. repeat split; auto.
    unfold fromId. now rewrite G.
  - intros i st G I Ek En.
    destruct W as [ND Wf].
    destruct (Wf i st (oget_Some_In _ _ _ G)) as [Ei _].
    assert (H : In {| pub_item := st; pub_globalArgs := _globalArgs s |}
                  (map (fun st => {| pub_item := st;
                                     pub_globalArgs := _globalArgs s |})
                     (filter (fun st => String.eqb (kind st) k)
                        (filter (fun st => includeStory st None)
                           (ovalues (_stories s)))))).
    { apply in_map_iff. exists st. split; auto. apply filter_In. split.
      - apply (listedStories_spec s st (conj ND Wf)). rewrite Ei. auto.
      - now apply String.eqb_eq. }
    pose proof (find_none _ _ F _ H) as Hn. simpl in Hn.
    apply String.eqb_neq in Hn. contradiction.
Qed.

End Listings.





Section SortByKey.
Context {A : Type}.
Variable comp : A -> A -> option Z.
Variable key : A -> Z.



End SortByKey.


Section Storybook.
Variable env : Comparators.


End Storybook.

(** ** Events, selection and error *)

Section Events.
Variable env : Comparators.

Lemma run_keeps_channel c :
  emits c = false -> keeps _channel (run env c).
Proof. intros E. destruct c; try discriminate E; simpl; keeps_tac. Qed.

Lemma run_keeps_selection c :
  writes_selection c = false -> keeps _selection (run env c).
Proof.
  intros E. destruct c; try discriminate E; simpl;
    unfold getStoriesForManager; keeps_tac.
Qed.

Lemma run_keeps_error c :
  writes_error c = false -> keeps _error (run env c).
Proof.
  intros E. destruct c; try discriminate E; simpl;
    unfold getStoriesForManager; keeps_tac.
Qed.

Lemma emit_appends e s :
  exists evs,
    _channel (after (emit e) s) = option_map (fun c => c ++ evs) (_channel s).
Proof.
  unfold_methods. destruct (_channel s) as [c|] eqn:E; simpl.
  - exists [e]. reflexivity.
  - exists []. now rewrite E.
Qed.

Lemma appends_bind {A B} (m : M A) (k : A -> M B) :
  (forall s, exists evs,
     _channel (after m s) = option_map (fun c => c ++ evs) (_channel s)) ->
  (forall a s, exists evs,
     _channel (after (k a) s) = option_map (fun c => c ++ evs) (_channel s)) ->
  forall s, exists evs,
    _channel (after (bind m k) s) = option_map (fun c => c ++ evs) (_channel s).
Proof.
  intros Hm Hk s. destruct (Hm s) as [e1 E1].
  unfold after, bind in *. destruct (m s) as [[a|e] s1]; simpl in *.
  - destruct (Hk a s1) as [e2 E2]. exists (e1 ++ e2). rewrite E2, E1.
    destruct (_channel s); simpl; auto. now rewrite app_assoc.
  - exists e1. exact E1.
Qed.

Lemma appends_keeps {A} (m : M A) :
  keeps _channel m ->
  forall s, exists evs,
    _channel (after m s) = option_map (fun c => c ++ evs) (_channel s).
Proof.
  intros K s. exists []. rewrite K. destruct (_channel s); simpl; auto.
  now rewrite app_nil_r.
Qed.

Lemma appends_ifChannel (m : M unit) :
  (forall s, exists evs,
     _channel (after m s) = option_map (fun c => c ++ evs) (_channel s)) ->
  forall s, exists evs,
    _channel (after (ifChannel m) s)
    = option_map (fun c => c ++ evs) (_channel s).
Proof.
  intros H s. unfold ifChannel, bind, this, after. simpl.
  destruct (_channel s) eqn:E.
  - destruct (H s) as [evs Ev]. exists evs. unfold after in Ev.
    now rewrite Ev, E.
  - exists []. simpl. now rewrite E.
Qed.

Lemma run_appends c s :
  exists evs,
    _channel (after (run env c) s)
    = option_map (fun l => l ++ evs) (_channel s).
Proof.
  destruct (emits c) eqn:E.
  2:{ apply appends_keeps. now apply run_keeps_channel. }
  revert s.
  assert (P : forall s, exists evs,
            _channel (after (pushToManager env) s)
            = option_map (fun l => l ++ evs) (_channel s)).
  { unfold pushToManager. apply appends_ifChannel.
    apply appends_bind; [apply appends_keeps, keeps_this|intros s0].
    apply appends_bind; [apply appends_keeps, keeps_lift|intros stories].
    apply emit_appends. }
  destruct c; try discriminate E; simpl.
  - unfold finishConfiguring.
    apply appends_bind;
      [apply appends_keeps, keeps_update; reflexivity|intros _].
    apply appends_bind; [exact P|intros _].
    apply appends_ifChannel, emit_appends.
  - unfold setGlobalArgs.
    apply appends_bind;
      [apply appends_keeps, keeps_update; reflexivity|intros _].
    apply appends_bind; [apply appends_keeps, keeps_this|intros s0].
    apply emit_appends.
  - unfold setStoryArgs.
    apply appends_bind; [apply appends_keeps, keeps_this|intros s0].
    destruct (oget i (_stories s0)).
    + apply appends_bind;
        [apply appends_keeps, keeps_update; reflexivity|intros _].
      apply emit_appends.
    + apply appends_keeps, keeps_throw.
  - unfold setError.
    apply appends_bind;
      [apply appends_keeps, keeps_update; reflexivity|intros _].
    apply appends_ifChannel, emit_appends.
  - unfold setSelection.
    apply appends_bind;
      [apply appends_keeps, keeps_update; reflexivity|intros _].
    apply appends_ifChannel.
    apply appends_bind; [apply appends_keeps, keeps_this|intros s0].
    apply appends_bind; [apply emit_appends|intros _].
    destruct (negb (_configuring s0));
      [apply emit_appends|apply appends_keeps, keeps_ret].
  - exact P.
Qed.

(** X17: the store only ever appends to its channel: whatever is called,
    the events emitted before are still there, in their order, and a store
    without a channel stays without one.  Only [finishConfiguring],
    [pushToManager], [setGlobalArgs], [setStoryArgs], [setError] and
    [setSelection] emit: registering or removing stories, also outside the
    configuring phase, sends nothing. *)
Theorem channel_only_grows cs s :
  (exists evs,
     _channel (history env cs s)
     = option_map (fun l => l ++ evs) (_channel s))
  /\ (forallb (fun c => negb (emits c)) cs = true ->
      _channel (history env cs s) = _channel s).
Proof.
  split.
  - revert s. induction cs as [|c cs IH]; intros s.
    + exists []. simpl. destruct (_channel s); simpl; auto.
      now rewrite app_nil_r.
    + change (history env (c :: cs) s)
        with (history env cs (after (run env c) s)).
      destruct (IH (after (run env c) s)) as [e2 E2].
      destruct (run_appends c s) as [e1 E1].
      exists (e1 ++ e2). rewrite E2, E1.
      destruct (_channel s); simpl; auto. now rewrite app_assoc.
  - revert s. induction cs as [|c cs IH]; intros s H; [reflexivity|].
    change (history env (c :: cs) s)
      with (history env cs (after (run env c) s)).
    simpl in H. apply andb_prop in H. destruct H as [Hc H].
    rewrite IH by assumption. apply run_keeps_channel.
    now destruct (emits c).
Qed.

(** X18: the selection is written by [setSelection] alone, and the error
    by [setError] and [clearError] alone: no other call changes them.  In
    particular removing the selected story leaves the selection on the
    removed id, and [setSelection] does not clear the error. *)
Theorem selection_and_error_writers cs s :
  (forallb (fun c => negb (writes_selection c)) cs = true ->
   _selection (history env cs s) = _selection s)
  /\ (forallb (fun c => negb (writes_error c)) cs = true ->
      _error (history env cs s) = _error s).
Proof.
  split; revert s; induction cs as [|c cs IH]; intros s H;
    try reflexivity;
    change (history env (c :: cs) s)
      with (history env cs (after (run env c) s));
    simpl in H; apply andb_prop in H; destruct H as [Hc H];
    rewrite IH by assumption.
  - apply run_keeps_selection. now destruct (writes_selection c).
  - apply run_keeps_error. now destruct (writes_error c).
Qed.

End Events.

(** ** The listings and the events on the example store *)

Lemma getStoryKinds_lists_groups_witness :
  exists ks, getStoryKinds configured_store = Normal ks /\ NoDup ks.
Proof.
  destruct (getStoryKinds_lists_groups by_descending_id configured_store
              configured_store_reachable) as (ks & E & ND & _).
  exists ks. split; assumption.
Defined.

Lemma getRawStory_finds_witness :
  exists r, getRawStory configured_store "b" "b--2" = Normal r.
Proof.
  destruct (getRawStory_finds by_descending_id configured_store "b" "b--2"
              configured_store_reachable) as (r & E & _).
  exists r. exact E.
Defined.


Lemma channel_only_grows_witness :
  _channel (history by_descending_id
              [Remove "b--1" true;
               AddStory (example_story "c--1" "c" [])
                 {| applyDecorators := 0%nat; allowUnsafe := true |}]
              configured_store)
  = _channel configured_store.
Proof.
  apply (proj2 (channel_only_grows by_descending_id
                  [Remove "b--1" true;
                   AddStory (example_story "c--1" "c" [])
                     {| applyDecorators := 0%nat; allowUnsafe := true |}]
                  configured_store)).
  reflexivity.
Defined.

Lemma selection_and_error_writers_witness :
  _selection (history by_descending_id [Remove "a--1" true]
                (after (setSelection example_selection) configured_store))
  = Some example_selection.
Proof.
  rewrite (proj1 (selection_and_error_writers by_descending_id
                    [Remove "a--1" true]
                    (after (setSelection example_selection) configured_store)))
    by reflexivity.
  reflexivity.
Defined.
